(** * Log tailing for AWS Batch jobs: [fetch_stream] and [LogWatcher]

    A shallow embedding of [nextstrain/cli/runner/aws_batch/logs.py].

    - Log entries and pages are the dicts the CloudWatch Logs API returns;
      the keys the code reads are record fields here.
    - The generator returned by [fetch_stream] is an inductive sequence that
      ends by returning or by raising.  Where calls are compared with one
      another it is a generator object stepped by [next], over the page
      iterators that boto3 has handed out.
    - The watcher thread's [run] is a loop over a schedule: one element per
      evaluation of [self.stopped.wait(0.2)], giving the [stop()] calls other
      threads made by then and the answers the log service gives at that time.
    - The seen-set [consumed] is a [gset] of event ids. *)

From stdpp Require Import base option list gmap strings.
From Stdlib Require Import ZArith Lia Ascii.

Local Open Scope Z_scope.

#[local] Set Warnings "-clear-no-such-hyp".

(** ** Data *)

(** Exceptions that travel through this module.  None is raised or caught by
    the module itself: they come from boto3 or from the consumer. *)
Inductive exn :=
  | SourceUnavailable
  | StreamNotFound
  | ConsumerFailure
  | OtherError (name : string).

(** One log event, a dict with (at least) the keys ["eventId"],
    ["timestamp"] and ["message"]. *)
Record entry := Entry {
  eventId : string;
  timestamp : Z;
  message : string;
}.

(** The keyword arguments given to [paginate]; the key ["startTime"] may be
    absent. *)
Record query := Query {
  logGroupName : string;
  logStreamNames : list string;
  startTime : option Z;
}.

(** One page of a response; the key ["events"] may be absent. *)
Record page := Page { events : option (list entry) }.

(** What iterating the result of [log_events.paginate] with the query as
    keyword arguments produces: pages, then the end of the iteration or an
    exception. *)
Inductive pages :=
  | PagesEnd
  | PagesRaise (x : exn)
  | PagesNext (p : page) (rest : pages).

(** [boto3.client("logs").get_paginator("filter_log_events").paginate], as it
    answers at one moment.  A failure to build the client is a response that
    raises at once. *)
Definition paginator := query -> pages.

(** A generator of entries, run to its end. *)
Inductive gen :=
  | GenReturn
  | GenRaise (x : exn)
  | GenYield (e : entry) (k : gen).

(** ** fetch_stream *)

(** Python truth value of [start_time]: [None] and [0] are false. *)
Definition truthy (start_time : option Z) : bool :=
  match start_time with
  | None => false
  | Some t => negb (t =? 0)
  end.

(** Lines 21-27: the query dict. *)
Definition fetch_query (stream : string) (start_time : option Z) : query :=
  let query := Query "/aws/batch/job" [stream] None in
  if truthy start_time
  then Query (logGroupName query) (logStreamNames query) start_time
  else query.

(** [page.get("events", [])] *)
Definition page_events (p : page) : list entry := default [] (events p).

(** [yield from l], then continue as [k]. *)
Fixpoint yield_from (l : list entry) (k : gen) : gen :=
  match l with
  | [] => k
  | e :: l' => GenYield e (yield_from l' k)
  end.

(** Lines 29-30: [for page in ...: yield from page.get("events", [])]. *)
Fixpoint for_pages (ps : pages) : gen :=
  match ps with
  | PagesEnd => GenReturn
  | PagesRaise x => GenRaise x
  | PagesNext p rest => yield_from (page_events p) (for_pages rest)
  end.

Definition fetch_stream (log_events : paginator) (stream : string)
    (start_time : option Z) : gen :=
  for_pages (log_events (fetch_query stream start_time)).

(** The entries a generator yields before it ends, and how it ends. *)
Fixpoint gen_entries (g : gen) : list entry :=
  match g with
  | GenReturn | GenRaise _ => []
  | GenYield e k => e :: gen_entries k
  end.

Fixpoint gen_raises (g : gen) : option exn :=
  match g with
  | GenReturn => None
  | GenRaise x => Some x
  | GenYield _ k => gen_raises k
  end.

Fixpoint pages_entries (ps : pages) : list entry :=
  match ps with
  | PagesEnd | PagesRaise _ => []
  | PagesNext p rest => page_events p ++ pages_entries rest
  end.

Fixpoint pages_raises (ps : pages) : option exn :=
  match ps with
  | PagesEnd => None
  | PagesRaise x => Some x
  | PagesNext _ rest => pages_raises rest
  end.

(** ** LogWatcher *)

(** The consumer is a callable with effects of its own: it transforms its
    state of type [C] and returns ([None]) or raises ([Some x]). *)
Definition consumer_fn (C : Type) := entry -> C -> C * option exn.

Record LogWatcher (C : Type) := Watcher {
  stream : string;
  consumer : consumer_fn C;
  stopped : bool;   (* threading.Event: set or not *)
}.
Arguments Watcher {C}.
Arguments stream {C}.
Arguments consumer {C}.
Arguments stopped {C}.

(** [__init__] *)
Definition init {C : Type} (stream : string) (consumer : consumer_fn C)
    : LogWatcher C :=
  Watcher stream consumer false.

(** [stop]: [self.stopped.set()] *)
Definition stop {C : Type} (w : LogWatcher C) : LogWatcher C :=
  Watcher (stream w) (consumer w) true.

(** What the watcher thread does, in order. *)
Inductive event :=
  | Fetch (stream : string) (start_time : option Z)
      (* the call fetch_stream(self.stream, start_time = last_timestamp) *)
  | Yielded (e : entry)        (* the generator handed [e] to the for loop *)
  | Invoked (e : entry).       (* self.consumer(e) was called *)

(** The locals of [run], the consumer's state, and the events so far. *)
Record frame (C : Type) := Frame {
  last_timestamp : option Z;
  consumed : gset string;
  cstate : C;
  trace : list event;
}.
Arguments Frame {C}.
Arguments last_timestamp {C}.
Arguments consumed {C}.
Arguments cstate {C}.
Arguments trace {C}.

Definition log {C : Type} (ev : event) (f : frame C) : frame C :=
  Frame (last_timestamp f) (consumed f) (cstate f) (trace f ++ [ev]).

(** How a block of statements ends. *)
Inductive completion (C : Type) :=
  | Normal (f : frame C)
  | Raised (x : exn) (f : frame C).
Arguments Normal {C}.
Arguments Raised {C}.

(** Lines 75-80, the body of the for loop. *)
Definition body {C : Type} (w : LogWatcher C) (e : entry) (f : frame C)
    : completion C :=
  if decide (eventId e ∈ consumed f) then Normal f
  else
    let consumed' := consumed f ∪ {[ eventId e ]} in
    let last_timestamp' := Some (timestamp e) in
    let '(c', r) := consumer w e (cstate f) in
    let f' := Frame last_timestamp' consumed' c' (trace f ++ [Invoked e]) in
    match r with
    | None => Normal f'
    | Some x => Raised x f'
    end.

(** Line 74, the for loop over the generator. *)
Fixpoint for_entries {C : Type} (w : LogWatcher C) (g : gen) (f : frame C)
    : completion C :=
  match g with
  | GenReturn => Normal f
  | GenRaise x => Raised x f
  | GenYield e k =>
      match body w e (log (Yielded e) f) with
      | Normal f' => for_entries w k f'
      | Raised x f' => Raised x f'
      end
  end.

(** One evaluation of [self.stopped.wait(0.2)] and what surrounds it. *)
Record tick := Tick {
  stop_calls : nat;        (* stop() calls by other threads before the wait returns *)
  log_events : paginator;  (* the log service at the time of the fetch *)
}.

(** One pass through the while loop's body: the call of [fetch_stream] and
    the for loop over its result. *)
Definition poll {C : Type} (w : LogWatcher C) (log_events : paginator)
    (f : frame C) : completion C :=
  for_entries w (fetch_stream log_events (stream w) (last_timestamp f))
    (log (Fetch (stream w) (last_timestamp f)) f).

(** How the thread stands when the schedule has been used up. *)
Inductive outcome (C : Type) :=
  | Exited (f : frame C)            (* run returned: the wait saw the stop signal *)
  | Died (x : exn) (f : frame C)    (* run raised [x] *)
  | Pending (w : LogWatcher C) (f : frame C).  (* still in the loop *)
Arguments Exited {C}.
Arguments Died {C}.
Arguments Pending {C}.

(** Line 73, the while loop. *)
Fixpoint while_loop {C : Type} (w : LogWatcher C) (f : frame C)
    (sched : list tick) : outcome C :=
  match sched with
  | [] => Pending w f
  | tk :: rest =>
      let w := Nat.iter (stop_calls tk) stop w in
      if stopped w then Exited f
      else
        match poll w (log_events tk) f with
        | Normal f' => while_loop w f' rest
        | Raised x f' => Died x f'
        end
  end.

(** [run]: [last_timestamp = None], [consumed = set()], then the loop.  [c] is
    the consumer's state when the thread starts. *)
Definition run {C : Type} (w : LogWatcher C) (c : C) (sched : list tick)
    : outcome C :=
  while_loop w (Frame None ∅ c []) sched.

Definition final {C : Type} (o : outcome C) : frame C :=
  match o with
  | Exited f | Died _ f | Pending _ f => f
  end.

(** [Thread.join] returns once [run] has returned or raised. *)
Definition finished {C : Type} (o : outcome C) : bool :=
  match o with
  | Exited _ | Died _ _ => true
  | Pending _ _ => false
  end.

(** ** Reading a trace *)

Definition fetches (tr : list event) : list (option Z) :=
  omap (fun ev => match ev with Fetch _ t => Some t | _ => None end) tr.

Definition yielded (tr : list event) : list entry :=
  omap (fun ev => match ev with Yielded e => Some e | _ => None end) tr.

Definition invoked (tr : list event) : list entry :=
  omap (fun ev => match ev with Invoked e => Some e | _ => None end) tr.

(** The entries of [l] in order, each id kept at its first appearance only. *)
Fixpoint first_appearances (l : list entry) : list entry :=
  match l with
  | [] => []
  | e :: l' =>
      e :: filter (fun e' => eventId e' ≠ eventId e) (first_appearances l')
  end.

(** Order on cursors: [None] (no lower bound) is below every timestamp. *)
Definition cursor_le (a b : option Z) : Prop :=
  match a, b with
  | None, _ => True
  | Some _, None => False
  | Some x, Some y => x <= y
  end.

Definition frame_of {C : Type} (r : completion C) : frame C :=
  match r with
  | Normal f | Raised _ f => f
  end.

(** ** A log service and a consumer to run the code against *)

(** FilterLogEvents of CloudWatch Logs: events with a timestamp before
    [startTime] are not returned. *)
Definition in_range (q : query) (e : entry) : bool :=
  match startTime q with
  | None => true
  | Some t => t <=? timestamp e
  end.

(** A service that holds [store], already cut into pages. *)
Fixpoint service_pages (q : query) (store : list (list entry)) : pages :=
  match store with
  | [] => PagesEnd
  | p :: rest =>
      PagesNext (Page (Some (List.filter (in_range q) p))) (service_pages q rest)
  end.

Definition service (store : list (list entry)) : paginator :=
  fun q => service_pages q store.

(** A service that cannot be reached, and one that lacks the stream. *)
Definition unavailable : paginator := fun _ => PagesRaise SourceUnavailable.
Definition no_such_stream : paginator := fun _ => PagesRaise StreamNotFound.

(** A consumer that keeps what it is given, and one that raises on the
    entry with id [bad] (after taking it). *)
Definition collect : consumer_fn (list entry) :=
  fun e c => (c ++ [e], None).

Definition choke_on (bad : string) : consumer_fn (list entry) :=
  fun e c =>
    (c ++ [e], if decide (eventId e = bad) then Some ConsumerFailure else None).

Definition e1 : entry := Entry "1" 100 "one".
Definition e2 : entry := Entry "2" 101 "two".
Definition e3 : entry := Entry "3" 105 "three".

(** Scenario: the stream holds [e1; e2] at the first poll and [e3] has been
    appended by the second. *)
Definition two_polls : list tick :=
  [ Tick 0 (service [[e1; e2]]); Tick 0 (service [[e1]; [e2; e3]]) ].

(** ** Invariants of the loop *)

(** The seen-set holds the ids yielded so far, and the consumer has been
    called on their first appearances, in order. *)
Definition dedup_inv {C : Type} (f : frame C) : Prop :=
  (∀ i, i ∈ consumed f ↔ i ∈ eventId <$> yielded (trace f))
  ∧ invoked (trace f) = first_appearances (yielded (trace f)).

(** Each element is at most the next one. *)
Fixpoint ascending (l : list (option Z)) : Prop :=
  match l with
  | a :: (b :: _) as l' => cursor_le a b ∧ ascending l'
  | _ => True
  end.

(** What the calls of [fetch_stream] hand over when each runs to its end: the
    k-th call is made with the k-th recorded start time against the service
    of the k-th tick. *)
Definition polled (stream : string) (sched : list tick)
    (start_times : list (option Z)) : list entry :=
  concat (zip_with
    (fun tk t => gen_entries (fetch_stream (log_events tk) stream t))
    sched start_times).

(** The service's side of the bargain at one tick: asked for entries from [t]
    on, [fetch_stream] yields none that is older. *)
Definition bounded_below (stream : string) (tk : tick) : Prop :=
  ∀ t e, e ∈ gen_entries (fetch_stream (log_events tk) stream (Some t)) →
         t <= timestamp e.

(** ** fetch_stream, one [next] at a time *)

(** What outlives a call of [next] outside the generator object: the page
    iterators that [paginate] has handed out so far, each with the pages it
    has yet to give, and what the service answers to a query.  A page
    iterator is known by its position in the list.  The client and the
    paginator of line 19 are made anew by every call and hold no pagination
    state. *)
Record boto3 := Boto3 {
  answers : paginator;
  page_iterators : list pages;
}.

(** The generator object a call of [fetch_stream] returns.  Calling the
    function runs nothing of its body; the body runs from one [yield] to the
    next at each [next]. *)
Inductive generator :=
  | Created (stream : string) (start_time : option Z)
      (* the body has not been entered; the arguments are bound *)
  | Suspended (it : nat) (events : list entry)
      (* at the yield of line 30: the page iterator of line 29 and what is
         left of the page being delegated to *)
  | Finished.
      (* the body returned or raised *)

(** How a call of [next] on a generator object ends. *)
Inductive signal :=
  | Yields (e : entry)
  | StopIteration
  | Throws (x : exn).

(** Lines 29-30 from the head of the for loop: take pages from the page
    iterator until one has an event to yield.  Gives the signal, what is left
    of that page and what is left in the page iterator. *)
Fixpoint next_event (ps : pages) : signal * list entry * pages :=
  match ps with
  | PagesEnd => (StopIteration, [], PagesEnd)
  | PagesRaise x => (Throws x, [], PagesEnd)
  | PagesNext p rest =>
      match page_events p with
      | e :: events => (Yields e, events, rest)
      | [] => next_event rest
      end
  end.

(** The body from the head of the for loop over page iterator [it], whose
    pages left are [ps], up to the next yield or the end. *)
Definition resume (it : nat) (ps : pages) : signal * generator * pages :=
  let '(r, events, rest) := next_event ps in
  (r, match r with Yields _ => Suspended it events | _ => Finished end, rest).

(** [next(g)].  A generator entered for the first time builds its query and
    calls [paginate], which makes a new page iterator; a suspended one goes on
    with the page it was delegating to, then with its own page iterator. *)
Definition generator_next (g : generator) (b : boto3)
    : signal * generator * boto3 :=
  match g with
  | Created stream start_time =>
      let query := fetch_query stream start_time in
      let it := length (page_iterators b) in
      let '(r, g', rest) := resume it (answers b query) in
      (r, g', Boto3 (answers b) (page_iterators b ++ [rest]))
  | Suspended it (e :: events) => (Yields e, Suspended it events, b)
  | Suspended it [] =>
      match page_iterators b !! it with
      | Some ps =>
          let '(r, g', rest) := resume it ps in
          (r, g', Boto3 (answers b) (<[it := rest]> (page_iterators b)))
      | None => (StopIteration, Finished, b)
      end
  | Finished => (StopIteration, Finished, b)
  end.

(** Two generator objects and a schedule of calls of [next]: [true] calls it
    on the first, [false] on the second.  Gives the signals each one gave, in
    order, and the state that is left. *)
Fixpoint interleave (sched : list bool) (g1 g2 : generator) (b : boto3)
    : list signal * list signal * boto3 :=
  match sched with
  | [] => ([], [], b)
  | true :: sched' =>
      let '(r, g1', b') := generator_next g1 b in
      let '(o1, o2, b'') := interleave sched' g1' g2 b' in
      (r :: o1, o2, b'')
  | false :: sched' =>
      let '(r, g2', b') := generator_next g2 b in
      let '(o1, o2, b'') := interleave sched' g1 g2' b' in
      (o1, r :: o2, b'')
  end.

(** The number of turns of one side in a schedule. *)
Definition turns (side : bool) (sched : list bool) : nat :=
  length (filter (fun x => x = side) sched).

(** The first [n] signals of a generator run to its end: its entries, how it
    ends, and [StopIteration] from then on. *)
Fixpoint signals (n : nat) (g : gen) : list signal :=
  match n with
  | O => []
  | S n' =>
      match g with
      | GenYield e k => Yields e :: signals n' k
      | GenRaise x => Throws x :: signals n' GenReturn
      | GenReturn => StopIteration :: signals n' GenReturn
      end
  end.

Definition gen_head (g : gen) : signal :=
  match g with
  | GenYield e _ => Yields e
  | GenRaise x => Throws x
  | GenReturn => StopIteration
  end.

Definition gen_tail (g : gen) : gen :=
  match g with
  | GenYield _ k => k
  | GenRaise _ | GenReturn => GenReturn
  end.

(** The page iterator a generator object holds. *)
Definition own (g : generator) : option nat :=
  match g with
  | Suspended it _ => Some it
  | Created _ _ | Finished => None
  end.

(** What a generator object has yet to give, as a generator run to its end. *)
Definition remaining (g : generator) (b : boto3) : option gen :=
  match g with
  | Created stream start_time =>
      Some (fetch_stream (answers b) stream start_time)
  | Suspended it events =>
      (fun ps => yield_from events (for_pages ps)) <$> page_iterators b !! it
  | Finished => Some GenReturn
  end.

(** A consumer that never raises. *)
Definition quiet {C : Type} (w : LogWatcher C) : Prop :=
  ∀ e c, (consumer w e c).2 = None.

(** How the iteration over the pages ends, as the end of a generator. *)
Definition gen_end (r : option exn) : gen :=
  match r with
  | Some x => GenRaise x
  | None => GenReturn
  end.

(** A tick during whose wait some thread calls [stop]. *)
Definition stop_called (tk : tick) : Prop := (0 < stop_calls tk)%nat.

(** The state the consumer is in after being called on [l] in order, from
    state [c]. *)
Definition consumer_fold {C : Type} (w : LogWatcher C) (c : C)
    (l : list entry) : C :=
  foldl (fun c e => (consumer w e c).1) c l.

(** * The view command: [nextstrain/cli/command/view.py] *)

(** A call that returns a value or raises. *)
Inductive raises (A : Type) :=
  | Returns (a : A)
  | Raises (x : exn).
Arguments Returns {A}.
Arguments Raises {A}.

(** [socket.AddressFamily]; families other than the two the code names are
    told apart by their number. *)
Inductive AddressFamily :=
  | AF_INET
  | AF_INET6
  | AF_OTHER (n : Z).

#[global] Instance AddressFamily_eq_dec : EqDecision AddressFamily.
Proof. solve_decision. Defined.

(** The last field of an address: [(ip, port)] for IPv4 and
    [(ip, port, flowinfo, scope_id)] for IPv6. *)
Inductive sockaddr_t :=
  | Sockaddr2 (ip : string) (port : Z)
  | Sockaddr4 (ip : string) (port flowinfo scope_id : Z).

(** [class AddressInfo(NamedTuple)] *)
Record AddressInfo := {
  family : AddressFamily;
  type : Z;
  proto : Z;
  canonname : string;
  sockaddr : sockaddr_t;
}.

(** [sockaddr[0:2]] *)
Definition sockaddr_0_2 (sa : sockaddr_t) : string * Z :=
  match sa with
  | Sockaddr2 ip port | Sockaddr4 ip port _ _ => (ip, port)
  end.

(** A port as the command line gives it: the number [4000] by default, or
    the text after [--port]. *)
Inductive port_arg :=
  | PortInt (n : Z)
  | PortStr (s : string).

(** [resolve].  The two calls into Python's library are parameters:
    [getaddrinfo host port] stands for
    [getaddrinfo(host, port, proto = IPPROTO_TCP)] and [int port] for
    [int(port)]; either may raise. *)
Definition resolve (getaddrinfo : string → port_arg → raises (list AddressInfo))
    (int : port_arg → raises Z) (host : string) (port : port_arg)
    : raises (string * Z) :=
  match getaddrinfo host port with
  | Raises x => Raises x
  | Returns addrs =>
      let ip4 := filter (fun a => family a = AF_INET) addrs in
      let ip6 := filter (fun a => family a = AF_INET6) addrs in
      match ip4 with
      | a :: _ => Returns (sockaddr_0_2 (sockaddr a))
      | [] =>
          match ip6 with
          | a :: _ => Returns (sockaddr_0_2 (sockaddr a))
          | [] =>
              match int port with
              | Returns n => Returns (host, n)
              | Raises x => Raises x
              end
          end
      end
  end.

(** A resolver that knows one name, and the reading of ports made of
    digits that are used to run [resolve]. *)
Definition loopback6 : AddressInfo :=
  {| family := AF_INET6; type := 1; proto := 6; canonname := "";
     sockaddr := Sockaddr4 "::1" 4000 0 0 |}.

Definition loopback4 : AddressInfo :=
  {| family := AF_INET; type := 1; proto := 6; canonname := "";
     sockaddr := Sockaddr2 "127.0.0.1" 4000 |}.

Definition localhost_addrs : list AddressInfo := [loopback6; loopback4].

Definition hosts_file (host : string) (port : port_arg)
    : raises (list AddressInfo) :=
  if decide (host = "localhost") then Returns localhost_addrs
  else if decide (host = "ip6-localhost") then Returns [loopback6]
  else if decide (host = "") then Raises (OtherError "gaierror")
  else Returns [].

Definition int_of_port (port : port_arg) : raises Z :=
  match port with
  | PortInt n => Returns n
  | PortStr "4000" => Returns 4000
  | PortStr _ => Raises (OtherError "ValueError")
  end.

(** ** Paths and their names *)

(** Python strings are modelled by their UTF-8 bytes.  The characters the
    code looks for (".", "_", "/") are ASCII, and an ASCII byte never occurs
    inside the encoding of another character, so searching and replacing
    them bytewise is searching and replacing them characterwise. *)
Definition chars (s : string) : list ascii := String.list_ascii_of_string s.
Definition str (l : list ascii) : string := String.string_of_list_ascii l.

(** [s.endswith(suffix)] *)
Definition endswith (s suffix : string) : bool :=
  bool_decide (chars suffix `suffix_of` chars s).

(** [s.replace("_", "/")] *)
Definition underscore_to_slash (c : ascii) : ascii :=
  if decide (c = "_"%char) then "/"%char else c.

Definition replace_underscores (s : string) : string :=
  str (underscore_to_slash <$> chars s).

(** [s.rfind(".")], with [None] for -1. *)
Fixpoint rfind_dot (l : list ascii) : option nat :=
  match l with
  | [] => None
  | c :: l' =>
      match rfind_dot l' with
      | Some i => Some (S i)
      | None => if decide (c = "."%char) then Some 0%nat else None
      end
  end.

(** A [pathlib.Path] (POSIX flavour): the directory it is in and its final
    component. *)
Record Path := { parent : string; name : string }.

#[global] Instance Path_eq_dec : EqDecision Path.
Proof. solve_decision. Defined.

(** [path.stem], as pathlib defines it up to Python 3.12: the name up to
    its last dot, or the whole name when that dot is the first or the last
    character or there is none. *)
Definition stem (p : Path) : string :=
  match rfind_dot (chars (name p)) with
  | Some i =>
      if decide (0 < i < length (chars (name p)) - 1)%nat
      then str (take i (chars (name p)))
      else name p
  | None => name p
  end.

(** [path.with_name(n)] *)
Definition with_name (p : Path) (n : string) : Path :=
  {| parent := parent p; name := n |}.

(** [path.match("*" + suffix)] for a [suffix] without wildcards or
    separators: the final component ends with [suffix]. *)
Definition match_suffix (p : Path) (suffix : string) : bool :=
  endswith (name p) suffix.

(** An iterable that is gone through twice: a sequence gives its items both
    times, an iterator (such as the generator [Path.glob] returns) gives
    them the first time and nothing the second. *)
Inductive iterable (A : Type) :=
  | Sequence (l : list A)
  | Iterator (l : list A).
Arguments Sequence {A}.
Arguments Iterator {A}.

Definition first_pass {A : Type} (it : iterable A) : list A :=
  match it with
  | Sequence l | Iterator l => l
  end.

Definition second_pass {A : Type} (it : iterable A) : list A :=
  match it with
  | Sequence l => l
  | Iterator _ => []
  end.

(** ** narrative_paths *)

Definition narrative_paths (paths : iterable Path) : gset string :=
  list_to_set
    ((fun path => "narratives/" +:+ replace_underscores (stem path)) <$>
     filter (fun path => match_suffix path ".md" = true
                         ∧ name path ∉ ["README.md"; "group-overview.md"])
       (first_pass paths)).

(** ** dataset_paths *)

Definition sidecar_suffixes : list string :=
  ["meta"; "tree"; "root-sequence"; "seq"; "sequences"; "tip-frequencies";
   "measurements"; "entropy"].

Definition sidecar_file (path : Path) : bool :=
  existsb (fun suffix => endswith (name path) ("_" +:+ suffix +:+ ".json"))
    sidecar_suffixes.

(** [re.sub(r"_tree$", "", s)]: the pattern matches at the end of the string
    and before a newline that ends the string, so at most once. *)
Definition re_sub_tree (s : string) : string :=
  if endswith s "_tree"
  then str (take (length (chars s) - 5) (chars s))
  else if bool_decide (chars "_tree" ++ ["010"%char] `suffix_of` chars s)
  then str (take (length (chars s) - 6) (chars s) ++ ["010"%char])
  else s.

(** [meta_exists], a local function of [dataset_paths].  [util.remove_suffix]
    is not among the sources and the file system is outside the program:
    both are parameters. *)
Definition meta_exists (remove_suffix : string → string → string)
    (path_exists : Path → bool) (path : Path) : bool :=
  path_exists
    (with_name path (remove_suffix "_tree.json" (name path) +:+ "_meta.json")).

Definition dataset_paths (remove_suffix : string → string → string)
    (path_exists : Path → bool) (paths : iterable Path) : gset string :=
  let datasets_v2 : gset string :=
    list_to_set
      ((fun path => replace_underscores (stem path)) <$>
       filter (fun path => match_suffix path ".json" = true
                           ∧ sidecar_file path = false)
         (first_pass paths)) in
  let datasets_v1 : gset string :=
    list_to_set
      ((fun path => replace_underscores (re_sub_tree (stem path))) <$>
       filter (fun path => match_suffix path "_tree.json" = true
                           ∧ meta_exists remove_suffix path_exists path = true)
         (second_pass paths)) in
  datasets_v2 ∪ datasets_v1.

(** A build directory to run the two functions on, with a [remove_suffix]
    that drops the suffix when it is there. *)
Definition drop_suffix (suffix s : string) : string :=
  if endswith s suffix
  then str (take (length (chars s) - length (chars suffix)) (chars s))
  else s.

Definition in_dir (names : list string) (p : Path) : bool :=
  bool_decide (parent p = "auspice" ∧ name p ∈ names).

Definition zika_v1 : list Path :=
  [ {| parent := "auspice"; name := "zika_tree.json" |};
    {| parent := "auspice"; name := "zika_meta.json" |} ].

(** ** Traces *)

Section traces.
Implicit Types (tr : list event) (e : entry).

Lemma fetches_app tr1 tr2 : fetches (tr1 ++ tr2) = fetches tr1 ++ fetches tr2.
Proof. apply omap_app. Qed.

Lemma yielded_app tr1 tr2 : yielded (tr1 ++ tr2) = yielded tr1 ++ yielded tr2.
Proof. apply omap_app. Qed.

Lemma invoked_app tr1 tr2 : invoked (tr1 ++ tr2) = invoked tr1 ++ invoked tr2.
Proof. apply omap_app. Qed.

Lemma fetches_snoc tr ev :
  fetches (tr ++ [ev]) =
  fetches tr ++ match ev with Fetch _ t => [t] | _ => [] end.
Proof. rewrite fetches_app. by destruct ev. Qed.

Lemma yielded_snoc tr ev :
  yielded (tr ++ [ev]) =
  yielded tr ++ match ev with Yielded e => [e] | _ => [] end.
Proof. rewrite yielded_app. by destruct ev. Qed.

Lemma invoked_snoc tr ev :
  invoked (tr ++ [ev]) =
  invoked tr ++ match ev with Invoked e => [e] | _ => [] end.
Proof. rewrite invoked_app. by destruct ev. Qed.
End traces.

Create Rewrite HintDb trace.
#[export] Hint Rewrite fetches_snoc yielded_snoc invoked_snoc
  @app_nil_r @app_assoc : trace.

(** Scenario 1: the entry present in both polls is delivered once. *)
Example two_polls_deliver :
  invoked (trace (final (run (init "job" collect) [] two_polls))) = [e1; e2; e3]
  /\ cstate (final (run (init "job" collect) [] two_polls)) = [e1; e2; e3]
  /\ fetches (trace (final (run (init "job" collect) [] two_polls)))
     = [None; Some 101].
Proof. vm_compute. auto. Qed.

(** ** First appearances *)

Section first_appearances.
Implicit Types (l : list entry) (e : entry) (i : string).

Lemma first_appearances_elem l e :
  e ∈ first_appearances l → e ∈ l.
Proof.
  revert e. induction l as [|a l IH]; intros e; simpl; [done|].
  rewrite !elem_of_cons, list_elem_of_filter. intros [->|[_ He]]; auto.
Qed.

Lemma first_appearances_ids l i :
  i ∈ eventId <$> first_appearances l ↔ i ∈ eventId <$> l.
Proof.
  induction l as [|a l IH]; simpl; [done|].
  rewrite !elem_of_cons, <- IH, !list_elem_of_fmap.
  split.
  - intros [->|(e & -> & [_ He]%list_elem_of_filter)]; eauto.
  - intros [->|(e & -> & He)]; [by left|].
    destruct (decide (eventId e = eventId a)) as [->|Hne]; [by left|].
    right. exists e. by rewrite list_elem_of_filter.
Qed.

Lemma first_appearances_NoDup l : NoDup (eventId <$> first_appearances l).
Proof.
  induction l as [|a l IH]; simpl; [constructor|].
  constructor.
  - rewrite list_elem_of_fmap. intros (e & Heq & [Hne _]%list_elem_of_filter).
    by apply Hne.
  - generalize dependent (first_appearances l). clear.
    intros l'. induction l' as [|b l' IH']; simpl; [constructor|].
    intros [Hb Hl']%NoDup_cons.
    rewrite filter_cons. case_decide; simpl; [|by apply IH'].
    constructor; [|by apply IH'].
    rewrite list_elem_of_fmap. intros (e & Heq & [_ He]%list_elem_of_filter).
    apply Hb. rewrite list_elem_of_fmap. eauto.
Qed.

(** What one more yielded entry adds. *)
Lemma first_appearances_snoc l e :
  first_appearances (l ++ [e]) =
  first_appearances l ++
    (if decide (eventId e ∈ eventId <$> l) then [] else [e]).
Proof.
  induction l as [|a l IH].
  - cbn [app first_appearances fmap list_fmap].
    destruct (decide (eventId e ∈ [])) as [Hin|Hin]; [|done].
    by apply elem_of_nil in Hin.
  - cbn [app first_appearances]. rewrite IH, filter_app, fmap_cons.
    f_equal. f_equal.
    destruct (decide (eventId e ∈ eventId <$> l)) as [Hin|Hin];
      destruct (decide (eventId e ∈ eventId a :: (eventId <$> l)))
        as [Hin'|Hin']; simpl.
    + done.
    + exfalso. apply Hin'. by right.
    + apply elem_of_cons in Hin' as [Heq|?]; [|done].
      rewrite filter_cons, decide_False; [done|]. intros Hn. by apply Hn.
    + rewrite filter_cons, decide_True; [done|].
      intros Heq. apply Hin'. rewrite Heq. by left.
Qed.
End first_appearances.

(** ** The for loop *)

Ltac step_body w e f :=
  unfold body;
  destruct (decide (eventId e ∈ consumed f)) as [?Hseen|?Hnew];
  [|destruct (consumer w e (cstate f)) as [?c' [?x|]]];
  cbn [frame_of last_timestamp consumed cstate trace log].

Section for_loop.
Context {C : Type}.
Implicit Types (w : LogWatcher C) (f : frame C) (e : entry) (g : gen).

Lemma body_step_inv w e f :
  dedup_inv f → dedup_inv (frame_of (body w e (log (Yielded e) f))).
Proof.
  intros [Hset Hinv]. unfold dedup_inv.
  step_body w e (log (Yielded e) f); autorewrite with trace;
    rewrite first_appearances_snoc, <- Hinv.
  - apply Hset in Hseen. rewrite decide_True by done.
    split; [|by rewrite app_nil_r].
    intros i. rewrite Hset, fmap_app. set_solver.
  - rewrite decide_False by (by rewrite <- Hset).
    split; [|done].
    intros i. rewrite elem_of_union, Hset, fmap_app. set_solver.
  - rewrite decide_False by (by rewrite <- Hset).
    split; [|done].
    intros i. rewrite elem_of_union, Hset, fmap_app. set_solver.
Qed.

Lemma for_entries_inv w g f :
  dedup_inv f → dedup_inv (frame_of (for_entries w g f)).
Proof.
  revert f. induction g as [| |e k IH]; intros f Hf; simpl; [done..|].
  pose proof (body_step_inv w e f Hf) as Hb.
  destruct (body w e (log (Yielded e) f)); [by apply IH|done].
Qed.

(** The body leaves the list of fetches alone. *)
Lemma body_fetches w e f :
  fetches (trace (frame_of (body w e f))) = fetches (trace f).
Proof. step_body w e f; by autorewrite with trace. Qed.

Lemma for_entries_fetches w g f :
  fetches (trace (frame_of (for_entries w g f))) = fetches (trace f).
Proof.
  revert f. induction g as [| |e k IH]; intros f; simpl; [done..|].
  pose proof (body_fetches w e (log (Yielded e) f)) as Hb.
  destruct (body w e (log (Yielded e) f)) as [f'|x f']; simpl in Hb;
    [rewrite IH|simpl]; rewrite Hb; cbn [log trace]; by autorewrite with trace.
Qed.

(** The cursor after the body is the old one or the entry's timestamp, and
    in the second case the consumer was called on that entry. *)
Lemma body_cursor w e f :
  frame_of (body w e f) = f
  ∨ (last_timestamp (frame_of (body w e f)) = Some (timestamp e)
     ∧ consumed (frame_of (body w e f)) = consumed f ∪ {[ eventId e ]}
     ∧ invoked (trace (frame_of (body w e f))) = invoked (trace f) ++ [e]
     ∧ eventId e ∉ consumed f).
Proof. step_body w e f; autorewrite with trace; auto. Qed.

Lemma for_entries_cursor w g f :
  last_timestamp (frame_of (for_entries w g f)) = last_timestamp f
  ∨ ∃ e, e ∈ gen_entries g
         ∧ last_timestamp (frame_of (for_entries w g f)) = Some (timestamp e).
Proof.
  revert f. induction g as [| |e k IH]; intros f; simpl; [by left..|].
  destruct (body_cursor w e (log (Yielded e) f)) as [Hb|(Hb & _)];
    destruct (body w e (log (Yielded e) f)) as [f'|x f']; simpl in Hb.
  - destruct (IH f') as [->|(e' & ? & ->)]; [left; by rewrite Hb|].
    right. exists e'. split; [by right|done].
  - left. by rewrite Hb.
  - destruct (IH f') as [->|(e' & ? & ->)].
    + right. exists e. split; [by left|done].
    + right. exists e'. split; [by right|done].
  - right. exists e. split; [by left|done].
Qed.

(** The seen-set only grows, and the consumer is only called on entries
    whose id was not in it. *)
Lemma for_entries_invoked w g f :
  consumed f ⊆ consumed (frame_of (for_entries w g f))
  ∧ ∃ new, invoked (trace (frame_of (for_entries w g f)))
           = invoked (trace f) ++ new
           ∧ ∀ e, e ∈ new → eventId e ∉ consumed f.
Proof.
  revert f. induction g as [| |e k IH]; intros f; simpl;
    [split; [done|exists []; split; [by rewrite app_nil_r|by intros ? ?%elem_of_nil]]..|].
  assert (Hlog : invoked (trace (log (Yielded e) f)) = invoked (trace f))
    by (cbn [log trace]; by autorewrite with trace).
  destruct (body_cursor w e (log (Yielded e) f)) as [Hb|(_ & Hc & Hi & Hn)];
    destruct (body w e (log (Yielded e) f)) as [f'|x f'];
    cbn [frame_of log consumed] in *.
  - destruct (IH f') as (Hsub & new & Hnew & Hfresh). subst f'.
    split; [done|]. exists new. by rewrite Hnew, Hlog.
  - subst f'. split; [done|]. exists []. rewrite Hlog, app_nil_r.
    split; [done|by intros ? ?%elem_of_nil].
  - destruct (IH f') as (Hsub & new & Hnew & Hfresh).
    split; [set_solver|]. exists (e :: new).
    rewrite Hnew, Hi, Hlog, <- app_assoc. split; [done|].
    intros e' [->|He']%elem_of_cons; [done|].
    apply Hfresh in He'. set_solver.
  - split; [set_solver|]. exists [e]. rewrite Hi, Hlog. split; [done|].
    by intros e' ->%list_elem_of_singleton.
Qed.

(** A for loop that ends normally has gone through the whole generator. *)
Lemma for_entries_yielded w g f f' :
  for_entries w g f = Normal f' →
  gen_raises g = None
  ∧ yielded (trace f') = yielded (trace f) ++ gen_entries g.
Proof.
  revert f. induction g as [| |e k IH]; intros f; simpl.
  - intros [= <-]. by rewrite app_nil_r.
  - done.
  - destruct (body_cursor w e (log (Yielded e) f)) as [Hb|Hb];
      destruct (body w e (log (Yielded e) f)) as [f1|x f1] eqn:Hbody;
      [|done| |done]; intros [Hr Hy]%IH; (split; [done|]); rewrite Hy.
    + simpl in Hb. subst f1. cbn [log trace]. autorewrite with trace.
      by rewrite <- app_assoc.
    + revert Hbody. step_body w e (log (Yielded e) f); [naive_solver| |];
        intros [= <-]; cbn [trace]; autorewrite with trace;
        by rewrite <- ?app_assoc.
Qed.
End for_loop.

(** ** The while loop *)

Section while_loop.
Context {C : Type}.
Implicit Types (w : LogWatcher C) (f : frame C) (sched : list tick).

Lemma stops_stream n w : stream (Nat.iter n stop w) = stream w.
Proof. induction n as [|n IH]; [done|]. by rewrite Nat.iter_succ. Qed.

Lemma stops_consumer n w : consumer (Nat.iter n stop w) = consumer w.
Proof. induction n as [|n IH]; [done|]. by rewrite Nat.iter_succ. Qed.

Lemma stops_stopped n w :
  stopped (Nat.iter n stop w) = stopped w || bool_decide (0 < n)%nat.
Proof.
  destruct n as [|n]; [by rewrite orb_false_r|].
  rewrite Nat.iter_succ, bool_decide_eq_true_2, orb_true_r by lia. done.
Qed.

(** Running a schedule in two parts. *)
Lemma while_loop_app w f s1 s2 :
  while_loop w f (s1 ++ s2) =
  match while_loop w f s1 with
  | Pending w' f' => while_loop w' f' s2
  | o => o
  end.
Proof.
  revert w f. induction s1 as [|tk s1 IH]; intros w f; simpl; [done|].
  destruct (stopped _); [done|].
  destruct (poll _ _ f); [apply IH|done].
Qed.

Lemma poll_inv w p f : dedup_inv f → dedup_inv (frame_of (poll w p f)).
Proof.
  intros [Hset Hinv]. apply for_entries_inv.
  split; cbn [log trace consumed]; by autorewrite with trace.
Qed.

Lemma while_loop_inv w f sched :
  dedup_inv f → dedup_inv (final (while_loop w f sched)).
Proof.
  revert w f. induction sched as [|tk rest IH]; intros w f Hf; simpl; [done|].
  destruct (stopped _); [done|].
  pose proof (poll_inv (Nat.iter (stop_calls tk) stop w) (log_events tk) f Hf).
  destruct (poll _ _ f); [by apply IH|done].
Qed.

Lemma run_inv w c sched : dedup_inv (final (run w c sched)).
Proof.
  apply while_loop_inv. split; [|done].
  intros i. cbn. by rewrite elem_of_empty, elem_of_nil.
Qed.

(** A poll adds one fetch, made with the cursor as it stood. *)
Lemma poll_fetches w p f :
  fetches (trace (frame_of (poll w p f)))
  = fetches (trace f) ++ [last_timestamp f].
Proof.
  unfold poll. rewrite for_entries_fetches. cbn [log trace].
  by autorewrite with trace.
Qed.

Lemma poll_yielded w p f f' :
  poll w p f = Normal f' →
  yielded (trace f')
  = yielded (trace f)
    ++ gen_entries (fetch_stream p (stream w) (last_timestamp f)).
Proof.
  intros [_ ->]%for_entries_yielded. cbn [log trace].
  by autorewrite with trace.
Qed.

(** Unless [run] raised, what the for loops went through is what the calls
    of [fetch_stream] had to give. *)
Lemma while_loop_yielded w f sched :
  (∀ x f', while_loop w f sched ≠ Died x f') →
  ∃ ts, fetches (trace (final (while_loop w f sched))) = fetches (trace f) ++ ts
        ∧ yielded (trace (final (while_loop w f sched)))
          = yielded (trace f) ++ polled (stream w) sched ts.
Proof.
  revert w f. induction sched as [|tk rest IH]; intros w f Hlive; simpl in *.
  - exists []. by rewrite !app_nil_r.
  - destruct (stopped _) eqn:Hs; simpl.
    + exists []. unfold polled. rewrite zip_with_nil_r. by rewrite !app_nil_r.
    + set (w' := Nat.iter (stop_calls tk) stop w) in *.
      pose proof (poll_fetches w' (log_events tk) f) as Hf.
      destruct (poll w' (log_events tk) f) as [f1|x f1] eqn:Hp;
        [|by destruct (Hlive x f1)].
      apply poll_yielded in Hp. simpl in Hf.
      destruct (IH w' f1 Hlive) as (ts & Hts & Hys).
      exists (last_timestamp f :: ts).
      rewrite Hts, Hys, Hf, Hp, <- !app_assoc. split; [done|].
      unfold polled, w'. by rewrite !stops_stream.
Qed.
End while_loop.

(** ** Delivery *)

(** C1 (exactly-once delivery).  Over any schedule of polls, with any
    consumer and any answers of the log service, no id is passed to the
    consumer twice, and the ids passed to the consumer are the ids of the
    entries the calls of [fetch_stream] handed to the loop.  Unless [run]
    raised, those are all the entries the calls had to give. *)
Theorem exactly_once_delivery {C : Type} (w : LogWatcher C) (c : C)
    (sched : list tick) :
  let tr := trace (final (run w c sched)) in
  NoDup (eventId <$> invoked tr)
  ∧ (∀ i, i ∈ eventId <$> invoked tr ↔ i ∈ eventId <$> yielded tr)
  ∧ ((∀ x f, run w c sched ≠ Died x f) →
     yielded tr = polled (stream w) sched (fetches tr)).
Proof.
  intros tr. destruct (run_inv w c sched) as [_ Hinv]. fold tr in Hinv.
  rewrite Hinv. split; [apply first_appearances_NoDup|].
  split; [apply first_appearances_ids|].
  intros Hlive. destruct (while_loop_yielded w _ sched Hlive) as (ts & Hts & Hys).
  unfold tr, run. by rewrite Hys, Hts.
Qed.

(** C2 (delivery order).  The consumer is called on the entries in the order
    of their first appearance among the entries the polls yielded, one poll
    after the other; nothing is sorted. *)
Theorem delivery_order {C : Type} (w : LogWatcher C) (c : C)
    (sched : list tick) :
  let tr := trace (final (run w c sched)) in
  invoked tr = first_appearances (yielded tr)
  ∧ ((∀ x f, run w c sched ≠ Died x f) →
     invoked tr = first_appearances (polled (stream w) sched (fetches tr))).
Proof.
  intros tr. destruct (run_inv w c sched) as [_ Hinv]. fold tr in Hinv.
  split; [done|]. intros Hlive. rewrite Hinv. f_equal.
  destruct (while_loop_yielded w _ sched Hlive) as (ts & Hts & Hys).
  unfold tr, run. by rewrite Hys, Hts.
Qed.

(** The service may answer out of timestamp order; the order is kept. *)
Example delivery_order_unsorted :
  invoked (trace (final (run (init "job" collect) []
    [Tick 0 (service [[e3; e1]]); Tick 0 (service [[e3; e2; e1]])])))
  = [e3; e1; e2].
Proof. vm_compute. reflexivity. Qed.

(** The scenario's two polls: four entries yielded, three consumer calls. *)
Lemma exactly_once_delivery_witness :
  (∀ x f, run (init "job" collect) [] two_polls ≠ Died x f)
  ∧ NoDup (eventId <$>
      invoked (trace (final (run (init "job" collect) [] two_polls))))
  ∧ polled "job" two_polls [None; Some 101] = [e1; e2; e2; e3].
Proof.
  assert (Hlive : ∀ x f, run (init "job" collect) [] two_polls ≠ Died x f).
  { intros x f H. vm_compute in H. discriminate H. }
  pose proof (exactly_once_delivery (init "job" collect) [] two_polls) as H.
  cbv zeta in H. destruct H as (Hnd & _ & Hy).
  split; [exact Hlive|]. split; [exact Hnd|].
  vm_compute. reflexivity.
Defined.

Lemma delivery_order_witness :
  (∀ x f, run (init "job" collect) [] two_polls ≠ Died x f)
  ∧ invoked (trace (final (run (init "job" collect) [] two_polls)))
    = first_appearances
        (polled "job" two_polls
           (fetches (trace (final (run (init "job" collect) [] two_polls))))).
Proof.
  assert (Hlive : ∀ x f, run (init "job" collect) [] two_polls ≠ Died x f).
  { intros x f H. vm_compute in H. discriminate H. }
  pose proof (delivery_order (init "job" collect) [] two_polls) as H.
  cbv zeta in H. destruct H as (_ & Hy).
  split; [exact Hlive|]. exact (Hy Hlive).
Defined.

(** ** The cursor *)

Section cursor.
Context {C : Type}.
Implicit Types (w : LogWatcher C) (f : frame C) (sched : list tick).

Lemma cursor_le_refl a : cursor_le a a.
Proof. destruct a; simpl; [lia|done]. Qed.

Lemma ascending_lookup l n a b :
  ascending l → l !! n = Some a → l !! S n = Some b → cursor_le a b.
Proof.
  revert n. induction l as [|x [|y l] IH]; intros n; [done..|].
  intros [Hxy Hl]. destruct n as [|n].
  - by intros [= ->] [= ->].
  - intros Ha Hb. by apply (IH n Hl).
Qed.

Lemma poll_cursor w p f :
  (∀ t e, e ∈ gen_entries (fetch_stream p (stream w) (Some t)) →
          t <= timestamp e) →
  cursor_le (last_timestamp f) (last_timestamp (frame_of (poll w p f))).
Proof.
  intros Hp. unfold poll.
  destruct (for_entries_cursor w
    (fetch_stream p (stream w) (last_timestamp f))
    (log (Fetch (stream w) (last_timestamp f)) f)) as [->|(e & He & ->)].
  - apply cursor_le_refl.
  - destruct (last_timestamp f) as [t|]; simpl; [by apply Hp|done].
Qed.

Lemma while_loop_ascending w f sched :
  (∀ tk, tk ∈ sched → bounded_below (stream w) tk) →
  ∃ ts, fetches (trace (final (while_loop w f sched))) = fetches (trace f) ++ ts
        ∧ ascending ts
        ∧ (ts = [] ∨ head ts = Some (last_timestamp f)).
Proof.
  revert w f. induction sched as [|tk rest IH]; intros w f Hb; simpl.
  { exists []. rewrite app_nil_r. split; [done|]. split; [done|by left]. }
  destruct (stopped _); simpl.
  { exists []. rewrite app_nil_r. split; [done|]. split; [done|by left]. }
  set (w' := Nat.iter (stop_calls tk) stop w).
  assert (Hw' : stream w' = stream w) by apply stops_stream.
  pose proof (poll_fetches w' (log_events tk) f) as Hf.
  assert (Hc : cursor_le (last_timestamp f)
                 (last_timestamp (frame_of (poll w' (log_events tk) f)))).
  { apply poll_cursor. rewrite Hw'. apply Hb. by left. }
  destruct (poll w' (log_events tk) f) as [f1|x f1]; simpl in *.
  - destruct (IH w' f1) as (ts & Hts & Hasc & Hhd).
    { intros tk' Htk'. rewrite Hw'. apply Hb. by right. }
    exists (last_timestamp f :: ts). rewrite Hts, Hf, <- app_assoc.
    split; [done|]. split; [|by right].
    destruct ts as [|t ts]; [done|].
    destruct Hhd as [?|[= ->]]; [done|]. by split.
  - exists [last_timestamp f]. split; [done|]. split; [done|by right].
Qed.
End cursor.

(** C3 (cursor monotonicity).  If at every tick the entries [fetch_stream]
    yields for a start time [t] are no older than [t], then the start time
    of each poll is at most the start time of the next one, where no start
    time ([None]) counts as below every timestamp. *)
Theorem cursor_monotone {C : Type} (w : LogWatcher C) (c : C)
    (sched : list tick) (n : nat) (a b : option Z) :
  (∀ tk t e, tk ∈ sched →
     e ∈ gen_entries (fetch_stream (log_events tk) (stream w) (Some t)) →
     t <= timestamp e) →
  fetches (trace (final (run w c sched))) !! n = Some a →
  fetches (trace (final (run w c sched))) !! S n = Some b →
  cursor_le a b.
Proof.
  intros Hb.
  destruct (while_loop_ascending w (Frame None ∅ c []) sched)
    as (ts & Hts & Hasc & _).
  { intros tk Htk t e. by apply Hb. }
  unfold run. rewrite Hts. simpl. by apply ascending_lookup.
Qed.

(** ** fetch_stream and the service *)

Section fetching.
Implicit Types (l : list entry) (k : gen) (ps : pages) (p : paginator).

Lemma gen_entries_yield_from l k :
  gen_entries (yield_from l k) = l ++ gen_entries k.
Proof. induction l as [|e l IH]; simpl; [done|by rewrite IH]. Qed.

Lemma gen_raises_yield_from l k : gen_raises (yield_from l k) = gen_raises k.
Proof. induction l as [|e l IH]; simpl; done. Qed.

(** The generator yields the events of the pages, in order, whatever the
    number of pages. *)
Lemma gen_entries_for_pages ps : gen_entries (for_pages ps) = pages_entries ps.
Proof.
  induction ps as [| |pg rest IH]; simpl; [done..|].
  by rewrite gen_entries_yield_from, IH.
Qed.

(** It ends the way the iteration over the pages ends. *)
Lemma gen_raises_for_pages ps : gen_raises (for_pages ps) = pages_raises ps.
Proof.
  induction ps as [| |pg rest IH]; simpl; [done..|].
  by rewrite gen_raises_yield_from, IH.
Qed.

Lemma fetch_query_truthy s t :
  t ≠ 0 → fetch_query s (Some t) = Query "/aws/batch/job" [s] (Some t).
Proof.
  intros Ht. unfold fetch_query, truthy.
  by destruct (Z.eqb_spec t 0) as [?|_].
Qed.

Lemma fetch_query_falsy s t :
  truthy t = false → fetch_query s t = Query "/aws/batch/job" [s] None.
Proof. intros Ht. unfold fetch_query. by rewrite Ht. Qed.

Lemma service_entries q store e :
  e ∈ pages_entries (service_pages q store) →
  in_range q e = true ∧ ∃ pg, pg ∈ store ∧ e ∈ pg.
Proof.
  induction store as [|pg store IH]; simpl; [by intros ?%elem_of_nil|].
  unfold page_events at 1. simpl.
  intros [He|He]%elem_of_app.
  - apply list_elem_of_In, filter_In in He as [He Hq].
    split; [done|]. exists pg. split; [by left|by apply list_elem_of_In].
  - destruct (IH He) as (Hq & pg' & ? & ?).
    split; [done|]. exists pg'. split; [by right|done].
Qed.

(** A service whose timestamps are not negative keeps the lower bound for
    every start time, also for [0], where no bound is sent. *)
Lemma service_bounded_below s n store :
  (∀ pg e, pg ∈ store → e ∈ pg → 0 <= timestamp e) →
  bounded_below s (Tick n (service store)).
Proof.
  intros Hpos t e. unfold fetch_stream, service. simpl.
  rewrite gen_entries_for_pages. intros (Hq & pg & Hpg & He)%service_entries.
  destruct (decide (t = 0)) as [->|Ht]; [by eapply Hpos|].
  rewrite fetch_query_truthy in Hq by done. by apply Z.leb_le in Hq.
Qed.
End fetching.

(** The two polls of the scenario: the second starts from the timestamp of
    the last entry delivered in the first. *)
Lemma cursor_monotone_witness :
  (∀ tk t e, tk ∈ two_polls →
     e ∈ gen_entries (fetch_stream (log_events tk) "job" (Some t)) →
     t <= timestamp e)
  ∧ cursor_le None (Some 101).
Proof.
  assert (H : ∀ tk t e, tk ∈ two_polls →
     e ∈ gen_entries (fetch_stream (log_events tk) "job" (Some t)) →
     t <= timestamp e).
  { intros tk t e Htk. revert t e. change (bounded_below "job" tk).
    unfold two_polls in Htk. rewrite !elem_of_cons, elem_of_nil in Htk.
    destruct Htk as [->|[->|[]]]; apply service_bounded_below;
      intros pg e; rewrite !elem_of_cons, elem_of_nil;
      intros Hpg He; destruct_or!; subst; try done;
      rewrite !elem_of_cons, elem_of_nil in He; destruct_or!; subst; done. }
  split; [exact H|].
  exact (cursor_monotone (init "job" collect) [] two_polls 0 None (Some 101)
           H eq_refl eq_refl).
Defined.

(** C4 (start time zero).  For a start time of [0] the query is built
    without the key [startTime], as for no start time at all, and a
    service that holds an entry with a negative timestamp returns it. *)
Theorem fetch_stream_start_time_zero :
  startTime (fetch_query "job" (Some 0)) = None
  ∧ fetch_query "job" (Some 0) = fetch_query "job" None
  ∧ gen_entries (fetch_stream (service [[Entry "0" (-1) "old"; e1]]) "job" (Some 0))
    = [Entry "0" (-1) "old"; e1].
Proof. by vm_compute. Qed.

(** Every other start time is sent as the lower bound. *)
Lemma fetch_stream_start_time_sent (s : string) (t : Z) :
  t ≠ 0 → startTime (fetch_query s (Some t)) = Some t.
Proof. intros Ht. by rewrite fetch_query_truthy. Qed.


(** ** Stopping *)

Section stopping.
Context {C : Type}.
Implicit Types (w : LogWatcher C) (f : frame C) (sched : list tick).

Lemma body_ext w1 w2 e f : consumer w1 = consumer w2 → body w1 e f = body w2 e f.
Proof. intros Hc. unfold body. by rewrite Hc. Qed.

Lemma for_entries_ext w1 w2 g f :
  consumer w1 = consumer w2 → for_entries w1 g f = for_entries w2 g f.
Proof.
  intros Hc. revert f. induction g as [| |e k IH]; intros f; simpl; [done..|].
  rewrite (body_ext w1 w2) by done.
  destruct (body w2 e _); [apply IH|done].
Qed.

(** Calls of [stop] do not change what a poll does. *)
Lemma poll_stops n w p f : poll (Nat.iter n stop w) p f = poll w p f.
Proof.
  unfold poll. rewrite stops_stream.
  apply for_entries_ext, stops_consumer.
Qed.

(** A thread that has ended does nothing more. *)
Lemma while_loop_finished w f sched more :
  finished (while_loop w f sched) = true →
  while_loop w f (sched ++ more) = while_loop w f sched.
Proof.
  intros Hfin. rewrite while_loop_app.
  by destruct (while_loop w f sched).
Qed.

Lemma while_loop_stopped w f tk rest :
  stopped (Nat.iter (stop_calls tk) stop w) = true →
  while_loop w f (tk :: rest) = Exited f.
Proof. intros Hs. simpl. by rewrite Hs. Qed.
End stopping.

(** C5 (stopping).  When the stop signal is set by the time the wait at the
    top of the loop returns, [run] returns there: the frame, and with it the
    list of fetches and of consumer calls, is as the last completed poll
    left it, whatever the service would have answered afterwards.  If
    [stop] was called before the thread started, the consumer is never
    called.  Once [run] has returned or raised, nothing more happens. *)
Theorem stop_ends_run {C : Type} (w w' : LogWatcher C) (c : C)
    (pre post : list tick) (tk : tick) (f' : frame C) :
  run w c pre = Pending w' f' →
  stopped (Nat.iter (stop_calls tk) stop w') = true →
  run w c (pre ++ tk :: post) = Exited f'
  ∧ run (stop w) c (tk :: post) = Exited (Frame None ∅ c [])
  ∧ invoked (trace (final (run (stop w) c (tk :: post)))) = []
  ∧ (∀ sched more, finished (run w c sched) = true →
       run w c (sched ++ more) = run w c sched).
Proof.
  intros Hpre Hstop. unfold run in *. split_and!.
  - rewrite while_loop_app, Hpre. by apply while_loop_stopped.
  - apply while_loop_stopped. by rewrite stops_stopped.
  - rewrite while_loop_stopped; [done|]. by rewrite stops_stopped.
  - intros sched more. apply while_loop_finished.
Qed.

(** After one poll, a [stop] during the second wait ends the thread; the
    entry the service has by then is never fetched. *)
Lemma stop_ends_run_witness :
  run (init "job" collect) [] [Tick 0 (service [[e1; e2]])]
    = Pending (init "job" collect)
        (Frame (Some 101) {[ "1"; "2" ]} [e1; e2]
           [Fetch "job" None; Yielded e1; Invoked e1; Yielded e2; Invoked e2])
  ∧ invoked (trace (final
      (run (init "job" collect) []
         ([Tick 0 (service [[e1; e2]])]
            ++ Tick 1 (service [[e1; e2; e3]])
            :: [Tick 0 (service [[e1; e2; e3]])])))) = [e1; e2].
Proof.
  assert (Hpre : run (init "job" collect) [] [Tick 0 (service [[e1; e2]])]
    = Pending (init "job" collect)
        (Frame (Some 101) {[ "1"; "2" ]} [e1; e2]
           [Fetch "job" None; Yielded e1; Invoked e1; Yielded e2; Invoked e2])).
  { vm_compute. reflexivity. }
  split; [exact Hpre|].
  destruct (stop_ends_run (init "job" collect) _ [] _
              [Tick 0 (service [[e1; e2; e3]])]
              (Tick 1 (service [[e1; e2; e3]])) _ Hpre eq_refl) as [-> _].
  reflexivity.
Defined.

(** ** Failures *)

Section failures.
Context {C : Type}.
Implicit Types (w : LogWatcher C) (f : frame C) (e : entry) (g : gen).

Lemma body_quiet w e f : quiet w → ∃ f', body w e f = Normal f'.
Proof.
  intros Hq. unfold body. case_decide; [by eexists|].
  specialize (Hq e (cstate f)).
  destruct (consumer w e (cstate f)) as [c' r]. simpl in Hq. subst r.
  by eexists.
Qed.

Lemma body_yielded w e f :
  yielded (trace (frame_of (body w e f))) = yielded (trace f).
Proof. step_body w e f; by autorewrite with trace. Qed.

(** With a consumer that never raises, the for loop ends the way the
    generator ends, after going through all it yields. *)
Lemma for_entries_quiet w g f :
  quiet w →
  ∃ f', for_entries w g f
        = match gen_raises g with Some x => Raised x f' | None => Normal f' end
        ∧ yielded (trace f') = yielded (trace f) ++ gen_entries g
        ∧ fetches (trace f') = fetches (trace f).
Proof.
  intros Hq. revert f. induction g as [|x|e k IH]; intros f; simpl.
  - exists f. by rewrite app_nil_r.
  - exists f. by rewrite app_nil_r.
  - destruct (body_quiet w e (log (Yielded e) f) Hq) as [f1 Hb].
    pose proof (body_fetches w e (log (Yielded e) f)) as Hbf.
    pose proof (body_yielded w e (log (Yielded e) f)) as Hby.
    rewrite Hb in *. cbn [frame_of log trace] in Hbf, Hby.
    autorewrite with trace in Hbf, Hby.
    destruct (IH f1) as (f' & -> & Hy & Hf). exists f'.
    split; [done|]. by rewrite Hy, Hf, Hbf, Hby, <- app_assoc.
Qed.

(** The seen-set only grows in the while loop, and the consumer is only
    called on entries whose id was not in it. *)
Lemma while_loop_invoked w f sched :
  ∃ new, invoked (trace (final (while_loop w f sched)))
         = invoked (trace f) ++ new
         ∧ ∀ e, e ∈ new → eventId e ∉ consumed f.
Proof.
  revert w f. induction sched as [|tk rest IH]; intros w f; simpl.
  { exists []. rewrite app_nil_r. split; [done|by intros ? ?%elem_of_nil]. }
  destruct (stopped _); simpl.
  { exists []. rewrite app_nil_r. split; [done|by intros ? ?%elem_of_nil]. }
  set (w' := Nat.iter (stop_calls tk) stop w).
  unfold poll.
  destruct (for_entries_invoked w'
    (fetch_stream (log_events tk) (stream w') (last_timestamp f))
    (log (Fetch (stream w') (last_timestamp f)) f)) as (Hsub & new & Hnew & Hfresh).
  cbn [log trace consumed] in Hsub, Hnew, Hfresh.
  autorewrite with trace in Hnew.
  destruct (for_entries w' _ _) as [f1|x f1]; simpl in *.
  - destruct (IH w' f1) as (new' & Hnew' & Hfresh').
    exists (new ++ new'). rewrite Hnew', Hnew, <- app_assoc. split; [done|].
    intros e [He|He]%elem_of_app; [by apply Hfresh|].
    apply Hfresh' in He. set_solver.
  - by exists new.
Qed.
End failures.

(** C6 (failures of the fetch).  When the iteration over the pages raises,
    the generator of [fetch_stream] raises the same exception, after the
    entries of the pages that came before it; nothing is caught and the
    service is not asked again.  In the watcher, whose loop iterates the
    generator, the exception ends [run]: one fetch was made in that
    iteration, and the rest of the schedule is not used. *)
Theorem fetch_failure_propagates {C : Type} (w : LogWatcher C) (f : frame C)
    (tk : tick) (rest : list tick) (x : exn) :
  stopped (Nat.iter (stop_calls tk) stop w) = false →
  quiet w →
  pages_raises (log_events tk (fetch_query (stream w) (last_timestamp f)))
    = Some x →
  gen_raises (fetch_stream (log_events tk) (stream w) (last_timestamp f))
    = Some x
  ∧ gen_entries (fetch_stream (log_events tk) (stream w) (last_timestamp f))
    = pages_entries (log_events tk (fetch_query (stream w) (last_timestamp f)))
  ∧ ∃ f', while_loop w f (tk :: rest) = Died x f'
          ∧ fetches (trace f') = fetches (trace f) ++ [last_timestamp f]
          ∧ yielded (trace f')
            = yielded (trace f)
              ++ pages_entries
                   (log_events tk (fetch_query (stream w) (last_timestamp f))).
Proof.
  intros Hs Hq Hx. unfold fetch_stream.
  rewrite gen_raises_for_pages, gen_entries_for_pages.
  split; [done|]. split; [done|].
  simpl. rewrite Hs, poll_stops. unfold poll, fetch_stream.
  destruct (for_entries_quiet w
    (for_pages (log_events tk (fetch_query (stream w) (last_timestamp f))))
    (log (Fetch (stream w) (last_timestamp f)) f) Hq) as (f' & -> & Hy & Hf).
  rewrite gen_raises_for_pages, Hx. exists f'. split; [done|].
  rewrite Hf, Hy, gen_entries_for_pages. cbn [log trace].
  by autorewrite with trace.
Qed.

(** The service fails at the second poll and would be back at the third:
    the thread dies at the second, having fetched twice. *)
Lemma fetch_failure_propagates_witness :
  quiet (init "job" collect)
  ∧ run (init "job" collect) []
      [Tick 0 (service [[e1; e2]]); Tick 0 unavailable;
       Tick 0 (service [[e1; e2; e3]])]
    = Died SourceUnavailable
        (Frame (Some 101) {[ "1"; "2" ]} [e1; e2]
           [Fetch "job" None; Yielded e1; Invoked e1; Yielded e2; Invoked e2;
            Fetch "job" (Some 101)]).
Proof.
  assert (Hq : quiet (init "job" collect)) by (intros e c; reflexivity).
  split; [exact Hq|].
  destruct (fetch_failure_propagates (init "job" collect)
              (Frame (Some 101) {[ "1"; "2" ]} [e1; e2]
                 [Fetch "job" None; Yielded e1; Invoked e1; Yielded e2;
                  Invoked e2])
              (Tick 0 unavailable) [Tick 0 (service [[e1; e2; e3]])]
              SourceUnavailable eq_refl Hq eq_refl)
    as (_ & _ & f' & Hrun & _).
  vm_compute in Hrun. injection Hrun as <-.
  vm_compute. reflexivity.
Defined.

(** A stream that does not exist ends the thread at the first poll; a failure
    in the middle of the pagination comes after the entries of the pages
    before it have been delivered. *)
Example stream_not_found_at_first_poll :
  run (init "job" collect) [] [Tick 0 no_such_stream; Tick 0 (service [[e1]])]
  = Died StreamNotFound (Frame None ∅ [] [Fetch "job" None]).
Proof. vm_compute. reflexivity. Qed.

Example failure_between_pages :
  run (init "job" collect) []
    [Tick 0 (fun _ => PagesNext (Page (Some [e1])) (PagesRaise SourceUnavailable))]
  = Died SourceUnavailable
      (Frame (Some 100) {[ "1" ]} [e1]
         [Fetch "job" None; Yielded e1; Invoked e1]).
Proof. vm_compute. reflexivity. Qed.

(** ** Frame conditions *)

(** C7 (what is left alone).  The loop body on an entry whose id is in the
    seen-set returns the frame it was given: no consumer call, same cursor,
    same seen-set.  A poll whose generator yields nothing and returns
    changes nothing but the record of the fetch.  And the body changes the
    cursor only to the timestamp of the entry it passes to the consumer. *)
Theorem seen_entries_and_empty_polls_change_nothing {C : Type}
    (w : LogWatcher C) (e : entry) (f : frame C) (p : paginator) :
  (eventId e ∈ consumed f → body w e f = Normal f)
  ∧ (gen_entries (fetch_stream p (stream w) (last_timestamp f)) = [] →
     gen_raises (fetch_stream p (stream w) (last_timestamp f)) = None →
     poll w p f = Normal (log (Fetch (stream w) (last_timestamp f)) f))
  ∧ (last_timestamp (frame_of (body w e f)) = last_timestamp f
     ∨ (last_timestamp (frame_of (body w e f)) = Some (timestamp e)
        ∧ invoked (trace (frame_of (body w e f))) = invoked (trace f) ++ [e]
        ∧ eventId e ∉ consumed f)).
Proof.
  split_and!.
  - intros Hseen. unfold body. by rewrite decide_True.
  - unfold poll. destruct (fetch_stream p _ _); simpl; done.
  - destruct (body_cursor w e f) as [->|(? & _ & ? & ?)]; [by left|by right].
Qed.

(** The second poll of the scenario meets [e2] again, and a poll of an empty
    stream follows. *)
Lemma seen_entries_and_empty_polls_change_nothing_witness :
  body (init "job" collect) e2 (Frame (Some 101) {[ "1"; "2" ]} [e1; e2] [])
    = Normal (Frame (Some 101) {[ "1"; "2" ]} [e1; e2] [])
  ∧ poll (init "job" collect) (service [[]; []])
      (Frame (Some 101) {[ "1"; "2" ]} [e1; e2] [])
    = Normal (Frame (Some 101) {[ "1"; "2" ]} [e1; e2] [Fetch "job" (Some 101)]).
Proof.
  destruct (seen_entries_and_empty_polls_change_nothing
              (init "job" collect) e2
              (Frame (Some 101) {[ "1"; "2" ]} [e1; e2] [])
              (service [[]; []])) as (Hbody & Hpoll & _).
  split.
  - apply Hbody. vm_compute. set_solver.
  - apply Hpoll; reflexivity.
Defined.

(** Three empty polls in a row. *)
Example three_empty_polls :
  run (init "job" collect) []
    [Tick 0 (service []); Tick 0 (service [[]]); Tick 0 (fun _ => PagesNext (Page None) PagesEnd)]
  = Pending (init "job" collect)
      (Frame None ∅ [] [Fetch "job" None; Fetch "job" None; Fetch "job" None]).
Proof. vm_compute. reflexivity. Qed.

(** C8 (stop is idempotent).  Calling [stop] twice, or any number of times
    more than zero, leaves the watcher as one call does: the signal set, the
    stream and the consumer as they were. *)
Theorem stop_idempotent {C : Type} (w : LogWatcher C) (n : nat) :
  stop (stop w) = stop w
  ∧ Nat.iter (S n) stop w = stop w
  ∧ stopped (stop w) = true
  ∧ stream (stop w) = stream w
  ∧ consumer (stop w) = consumer w.
Proof.
  split_and!; try done.
  induction n as [|n IH]; [done|].
  rewrite Nat.iter_succ, IH. done.
Qed.

(** ** Restarting *)

Section restarting.
Implicit Types (g : generator) (b : boto3) (k : gen) (ps : pages).

Lemma next_event_spec ps :
  (next_event ps).1.1 = gen_head (for_pages ps)
  ∧ match (next_event ps).1.1 with
    | Yields _ =>
        yield_from (next_event ps).1.2 (for_pages (next_event ps).2)
    | _ => GenReturn
    end = gen_tail (for_pages ps).
Proof.
  induction ps as [|x|p rest IH]; simpl; [done..|].
  destruct (page_events p) as [|e events]; simpl; [apply IH|done].
Qed.

Lemma resume_spec it ps :
  (resume it ps).1.1 = gen_head (for_pages ps)
  ∧ (∀ b', page_iterators b' !! it = Some (resume it ps).2 →
           remaining (resume it ps).1.2 b' = Some (gen_tail (for_pages ps)))
  ∧ (∀ i, own (resume it ps).1.2 = Some i → i = it).
Proof.
  unfold resume. destruct (next_event_spec ps) as [Hh Ht].
  destruct (next_event ps) as [[r events] rest]. simpl in *.
  split; [done|]. split.
  - intros b' Hb'. destruct r; simpl; rewrite <- ?Ht; try done.
    by rewrite Hb'.
  - intros i. destruct r; simpl; congruence.
Qed.

(** One [next]: the signal is the head of what the generator object had yet
    to give, the rest is what it has yet to give afterwards; no page iterator
    but its own is touched, and the one it holds afterwards is the one it
    held or a new one. *)
Lemma generator_next_spec g b k :
  remaining g b = Some k →
  (generator_next g b).1.1 = gen_head k
  ∧ remaining (generator_next g b).1.2 (generator_next g b).2
    = Some (gen_tail k)
  ∧ answers (generator_next g b).2 = answers b
  ∧ (∀ i ps, page_iterators b !! i = Some ps → own g ≠ Some i →
             page_iterators (generator_next g b).2 !! i = Some ps)
  ∧ (∀ i, own (generator_next g b).1.2 = Some i →
          own g = Some i ∨ page_iterators b !! i = None).
Proof.
  destruct g as [s t|it [|e events]|]; simpl.
  - intros [= <-]. unfold fetch_stream.
    destruct (resume_spec (length (page_iterators b))
                (answers b (fetch_query s t))) as (Hh & Ht & Ho).
    destruct (resume _ _) as [[r g'] rest]. simpl in *.
    split_and!; [done| |done| |].
    + apply Ht. simpl. by rewrite lookup_app_r, Nat.sub_diag.
    + intros i ps Hi _. by rewrite lookup_app_l by (by eapply lookup_lt_Some).
    + intros i Hi. right. apply Ho in Hi as ->.
      by apply lookup_ge_None_2.
  - destruct (page_iterators b !! it) as [ps|] eqn:Hit; [|done].
    simpl. intros [= <-].
    destruct (resume_spec it ps) as (Hh & Ht & Ho).
    destruct (resume _ _) as [[r g'] rest]. simpl in *.
    split_and!; [done| |done| |].
    + apply Ht. simpl. apply list_lookup_insert_eq.
      by eapply lookup_lt_Some.
    + intros i ps' Hi Hne. rewrite list_lookup_insert_ne; [done|congruence].
    + intros i Hi. left. by apply Ho in Hi as ->.
  - destruct (page_iterators b !! it) as [ps|] eqn:Hit; [|done].
    simpl. intros [= <-]. simpl. split_and!; auto.
  - intros [= <-]. split_and!; auto.
Qed.

(** A [next] on one generator object leaves what another has yet to give,
    when the two hold different page iterators. *)
Lemma generator_next_frame g g' b k k' :
  remaining g b = Some k → remaining g' b = Some k' →
  (∀ i, own g = Some i → own g' ≠ Some i) →
  remaining g' (generator_next g b).2 = Some k'
  ∧ (∀ i, own (generator_next g b).1.2 = Some i → own g' ≠ Some i).
Proof.
  intros Hg Hg' Hne.
  destruct (generator_next_spec g b k Hg) as (_ & _ & Ha & Hfr & Ho).
  split.
  - destruct g' as [s t|it events|]; simpl in *; [by rewrite Ha| |done].
    destruct (page_iterators b !! it) as [ps|] eqn:Hit; [|done].
    rewrite (Hfr it ps Hit); [done|]. intros Heq. by apply (Hne it).
  - intros i Hi. destruct (Ho i Hi) as [Hi'|Hnone]; [by apply Hne|].
    destruct g' as [s t|it events|]; simpl in *; [done| |done].
    intros [= ->]. by rewrite Hnone in Hg'.
Qed.

Lemma signals_S n k :
  signals (S n) k = gen_head k :: signals n (gen_tail k).
Proof. by destruct k. Qed.

Lemma prefix_of_lookup {A : Type} (l1 l2 : list A) :
  (∀ i x, l1 !! i = Some x → l2 !! i = Some x) → l1 `prefix_of` l2.
Proof.
  revert l2. induction l1 as [|a l1 IH]; intros l2 H; [apply prefix_nil|].
  destruct l2 as [|a' l2]; [by specialize (H O a eq_refl)|].
  pose proof (H O a eq_refl) as [= ->].
  apply prefix_cons, IH. intros i x Hi. apply (H (S i) x Hi).
Qed.

Lemma turns_same side sched :
  turns side (side :: sched) = S (turns side sched).
Proof. unfold turns. by rewrite filter_cons_True. Qed.

Lemma turns_other side side' sched :
  side' ≠ side → turns side (side' :: sched) = turns side sched.
Proof. intros. unfold turns. by rewrite filter_cons_False. Qed.

Lemma interleave_spec sched : ∀ g1 g2 b k1 k2,
  remaining g1 b = Some k1 → remaining g2 b = Some k2 →
  (∀ i, own g1 = Some i → own g2 ≠ Some i) →
  (interleave sched g1 g2 b).1.1 = signals (turns true sched) k1
  ∧ (interleave sched g1 g2 b).1.2 = signals (turns false sched) k2
  ∧ answers (interleave sched g1 g2 b).2 = answers b
  ∧ (∀ i ps, page_iterators b !! i = Some ps →
             own g1 ≠ Some i → own g2 ≠ Some i →
             page_iterators (interleave sched g1 g2 b).2 !! i = Some ps).
Proof.
  induction sched as [|[] sched IH]; intros g1 g2 b k1 k2 H1 H2 Hne;
    [by split_and!| |].
  - destruct (generator_next_spec g1 b k1 H1) as (Hh & Ht & Ha & Hfr & Ho).
    destruct (generator_next_frame g1 g2 b k1 k2 H1 H2 Hne) as [H2' Hne'].
    rewrite turns_same, turns_other, signals_S by done.
    cbn [interleave]. destruct (generator_next g1 b) as [[r g1'] b'] eqn:Hn.
    cbn [fst snd] in *.
    destruct (IH g1' g2 b' _ _ Ht H2' Hne') as (I1 & I2 & I3 & I4).
    destruct (interleave sched g1' g2 b') as [[o1 o2] b''].
    cbn [fst snd] in *.
    split_and!; [congruence|done|congruence|].
    intros i ps Hi Hn1 Hn2. apply I4; [by apply Hfr| |done].
    intros Hi'. destruct (Ho i Hi') as [?|Hnone]; [done|congruence].
  - assert (Hne2 : ∀ i, own g2 = Some i → own g1 ≠ Some i).
    { intros i Hi Hi'. by apply (Hne i). }
    destruct (generator_next_spec g2 b k2 H2) as (Hh & Ht & Ha & Hfr & Ho).
    destruct (generator_next_frame g2 g1 b k2 k1 H2 H1 Hne2) as [H1' Hne'].
    rewrite turns_same, turns_other, signals_S by done.
    cbn [interleave]. destruct (generator_next g2 b) as [[r g2'] b'] eqn:Hn.
    cbn [fst snd] in *.
    assert (Hne'' : ∀ i, own g1 = Some i → own g2' ≠ Some i).
    { intros i Hi Hi'. by apply (Hne' i). }
    destruct (IH g1 g2' b' _ _ H1' Ht Hne'') as (I1 & I2 & I3 & I4).
    destruct (interleave sched g1 g2' b') as [[o1 o2] b''].
    cbn [fst snd] in *.
    split_and!; [done|congruence|congruence|].
    intros i ps Hi Hn1 Hn2. apply I4; [by apply Hfr|done|].
    intros Hi'. destruct (Ho i Hi') as [?|Hnone]; [done|congruence].
Qed.
End restarting.

(** C9 (restartable).  Take the generator objects of two calls of
    [fetch_stream] and call [next] on them in any interleaving, in a process
    where earlier calls have left page iterators behind in any state.  Each
    of the two gives the entries of its own query from the first one on, as
    many as it was asked for, then its end: where the other one stands makes
    no difference, and neither do the page iterators left behind.  With the
    same stream and start time the two give the same sequence.  The page
    iterators left behind by earlier calls are as they were, and so is what
    the service answers. *)
Theorem fetch_stream_restartable (b : boto3) (stream1 stream2 : string)
    (start_time1 start_time2 : option Z) (sched : list bool) :
  let r := interleave sched (Created stream1 start_time1)
             (Created stream2 start_time2) b in
  r.1.1 = signals (turns true sched)
            (fetch_stream (answers b) stream1 start_time1)
  ∧ r.1.2 = signals (turns false sched)
              (fetch_stream (answers b) stream2 start_time2)
  ∧ answers r.2 = answers b
  ∧ page_iterators b `prefix_of` page_iterators r.2.
Proof.
  destruct (interleave_spec sched (Created stream1 start_time1)
              (Created stream2 start_time2) b _ _ eq_refl eq_refl)
    as (H1 & H2 & H3 & H4); [done|].
  simpl. split_and!; [done..|].
  apply prefix_of_lookup. intros i ps Hi. by apply H4.
Qed.

(** The first call's generator is advanced past [e1], then the second call's
    is run to its end, then the first goes on: both give [e1; e2; e3] and
    end, and the page iterator an earlier call left half-way is as it was. *)
Example restart_half_way :
  interleave [true; false; false; false; false; true; true; true]
    (Created "job" (Some 100)) (Created "job" (Some 100))
    (Boto3 (service [[e1; e2]; [e3]]) [PagesNext (Page (Some [e3])) PagesEnd])
  = ([Yields e1; Yields e2; Yields e3; StopIteration],
     [Yields e1; Yields e2; Yields e3; StopIteration],
     Boto3 (service [[e1; e2]; [e3]])
       [PagesNext (Page (Some [e3])) PagesEnd; PagesEnd; PagesEnd]).
Proof. vm_compute. reflexivity. Qed.

(** ** A consumer that raises *)

Section raising.
Context {C : Type}.
Implicit Types (w : LogWatcher C) (f : frame C) (e : entry) (g k : gen).

(** The for loop over a generator that first yields the entries of [l]. *)
Lemma for_entries_yield_from w l k f :
  for_entries w (yield_from l k) f =
  match for_entries w (yield_from l GenReturn) f with
  | Normal f1 => for_entries w k f1
  | Raised x f1 => Raised x f1
  end.
Proof.
  revert f. induction l as [|e l IH]; intros f; simpl; [done|].
  destruct (body w e (log (Yielded e) f)); [apply IH|done].
Qed.
End raising.

(** C10 (a consumer that raises).  For an entry not seen before, the id is in
    the seen-set and the cursor is at the entry's timestamp when the consumer
    is called: if the consumer raises, the body ends with that exception and
    with that frame, and so does [run], wherever in the poll the entry
    comes.  From a frame that has the id in its seen-set no later poll
    would call the consumer on an entry with that id. *)
Theorem consumer_failure_after_bookkeeping {C : Type} (w : LogWatcher C)
    (e : entry) (f0 f : frame C) (c' : C) (x : exn) (tk : tick)
    (pre : list entry) (k : gen) (rest : list tick) :
  stopped (Nat.iter (stop_calls tk) stop w) = false →
  fetch_stream (log_events tk) (stream w) (last_timestamp f0)
    = yield_from pre (GenYield e k) →
  for_entries w (yield_from pre GenReturn)
    (log (Fetch (stream w) (last_timestamp f0)) f0) = Normal f →
  eventId e ∉ consumed f →
  consumer w e (cstate f) = (c', Some x) →
  body w e f
    = Raised x (Frame (Some (timestamp e)) (consumed f ∪ {[ eventId e ]}) c'
                  (trace f ++ [Invoked e]))
  ∧ while_loop w f0 (tk :: rest)
    = Died x (Frame (Some (timestamp e)) (consumed f ∪ {[ eventId e ]}) c'
                (trace f ++ [Yielded e; Invoked e]))
  ∧ (∀ (w2 : LogWatcher C) (f' : frame C) (sched : list tick),
       eventId e ∈ consumed f' →
       ∃ new, invoked (trace (final (while_loop w2 f' sched)))
              = invoked (trace f') ++ new
              ∧ ∀ e', e' ∈ new → eventId e' ≠ eventId e).
Proof.
  intros Hs Hg Hpre Hnew Hc. split_and!.
  - unfold body. rewrite decide_False by done. by rewrite Hc.
  - simpl. rewrite Hs, poll_stops. unfold poll.
    rewrite Hg, for_entries_yield_from, Hpre. simpl.
    unfold body. cbn [log consumed cstate trace last_timestamp].
    rewrite decide_False by done. rewrite Hc.
    by rewrite <- !app_assoc.
  - intros w2 f' sched Hin.
    destruct (while_loop_invoked w2 f' sched) as (new & Hinv & Hfresh).
    exists new. split; [done|].
    intros e' He' Heq. apply (Hfresh e' He'). by rewrite Heq.
Qed.

(** The consumer chokes on [e2], the second entry of the first poll. *)
Lemma consumer_failure_after_bookkeeping_witness :
("2" ∉ ({[ "1" ]} : gset string))
  ∧ run (init "job" (choke_on "2")) [] two_polls
    = Died ConsumerFailure
        (Frame (Some 101) ({[ "1" ]} ∪ {[ "2" ]}) [e1; e2]
           [Fetch "job" None; Yielded e1; Invoked e1; Yielded e2; Invoked e2]).
Proof.
  assert (Hnew : "2" ∉ ({[ "1" ]} : gset string)) by set_solver.
  split; [exact Hnew|].
  exact (proj1 (proj2 (consumer_failure_after_bookkeeping
    (init "job" (choke_on "2")) e2
    (Frame None ∅ [] [])
    (Frame (Some 100) {[ "1" ]} [e1] [Fetch "job" None; Yielded e1; Invoked e1])
    [e1; e2] ConsumerFailure (Tick 0 (service [[e1; e2]])) [e1] GenReturn
    [Tick 0 (service [[e1]; [e2; e3]])]
    eq_refl eq_refl eq_refl Hnew eq_refl))).
Defined.


(** * Further properties of the log watcher *)

(** ** Pages *)

Section pages.
Implicit Types (l : list entry) (k : gen) (ps : pages).

Lemma yield_from_app l1 l2 k :
  yield_from (l1 ++ l2) k = yield_from l1 (yield_from l2 k).
Proof. induction l1 as [|e l1 IH]; simpl; [done|by rewrite IH]. Qed.

(** The generator is the entries of all pages, then the end. *)
Lemma for_pages_flat ps :
  for_pages ps = yield_from (pages_entries ps) (gen_end (pages_raises ps)).
Proof.
  induction ps as [| |pg rest IH]; simpl; [done..|].
  by rewrite yield_from_app, IH.
Qed.
End pages.

(** X1 (page boundaries are not seen).  Two answers of the service with the
    same events in the same order and the same end (exhausted, or the same
    exception) give the same generator, however the events are cut into
    pages, and the watcher's poll is the same on both. *)
Theorem fetch_stream_hides_pages {C : Type} (p1 p2 : paginator)
    (w : LogWatcher C) (f : frame C) :
  pages_entries (p1 (fetch_query (stream w) (last_timestamp f)))
    = pages_entries (p2 (fetch_query (stream w) (last_timestamp f))) →
  pages_raises (p1 (fetch_query (stream w) (last_timestamp f)))
    = pages_raises (p2 (fetch_query (stream w) (last_timestamp f))) →
  fetch_stream p1 (stream w) (last_timestamp f)
    = fetch_stream p2 (stream w) (last_timestamp f)
  ∧ poll w p1 f = poll w p2 f.
Proof.
  intros He Hr.
  assert (fetch_stream p1 (stream w) (last_timestamp f)
          = fetch_stream p2 (stream w) (last_timestamp f)) as Hg.
  { unfold fetch_stream. by rewrite !for_pages_flat, He, Hr. }
  split; [done|]. unfold poll. by rewrite Hg.
Qed.

(** The same three events in two pages, and in four pages of which one is
    empty and one has no events key. *)
Lemma fetch_stream_hides_pages_witness :
  poll (init "job" collect) (service [[e1; e2]; [e3]]) (Frame None ∅ [] [])
  = poll (init "job" collect)
      (fun _ => PagesNext (Page (Some [e1]))
                  (PagesNext (Page None)
                     (PagesNext (Page (Some []))
                        (PagesNext (Page (Some [e2; e3])) PagesEnd))))
      (Frame None ∅ [] []).
Proof.
  exact (proj2 (fetch_stream_hides_pages
    (service [[e1; e2]; [e3]])
    (fun _ => PagesNext (Page (Some [e1]))
                (PagesNext (Page None)
                   (PagesNext (Page (Some []))
                      (PagesNext (Page (Some [e2; e3])) PagesEnd))))
    (init "job" collect) (Frame None ∅ [] []) eq_refl eq_refl)).
Defined.

(** ** What the frame records *)

Section frame_invariants.
Context {C : Type}.
Implicit Types (w : LogWatcher C) (f : frame C) (e : entry) (g : gen).

(** A property of frames that the loop body keeps, for the consumer at hand,
    and that the record of a fetch or of a yield does not touch, is kept by
    the while loop. *)
Lemma while_loop_keeps (P : frame C → Prop) w f sched :
  (∀ ev f, (∀ e, ev ≠ Invoked e) → P f → P (log ev f)) →
  (∀ w' e f, consumer w' = consumer w → P f → P (frame_of (body w' e f))) →
  P f → P (final (while_loop w f sched)).
Proof.
  intros Hlog Hbody.
  assert (Hfor : ∀ w' g f, consumer w' = consumer w → P f →
                   P (frame_of (for_entries w' g f))).
  { intros w' g. induction g as [| |e k IH]; intros f0 Hw Hf; simpl; [done..|].
    assert (P (frame_of (body w' e (log (Yielded e) f0)))) as Hb.
    { apply Hbody; [done|]. by apply Hlog. }
    destruct (body w' e (log (Yielded e) f0)); [by apply IH|done]. }
  assert (Hgen : ∀ w', consumer w' = consumer w → ∀ f, P f →
                   P (final (while_loop w' f sched))); [|by apply Hgen].
  induction sched as [|tk rest IH]; intros w' Hw f0 Hf; simpl; [done|].
  destruct (stopped _); [done|].
  set (w2 := Nat.iter (stop_calls tk) stop w').
  assert (Hw2 : consumer w2 = consumer w)
    by (unfold w2; by rewrite stops_consumer).
  assert (P (frame_of (poll w2 (log_events tk) f0))) as Hp.
  { apply Hfor; [done|]. by apply Hlog. }
  destruct (poll w2 (log_events tk) f0); simpl in *; [by apply IH|done].
Qed.

Lemma run_keeps (P : frame C → Prop) w c sched :
  (∀ ev f, (∀ e, ev ≠ Invoked e) → P f → P (log ev f)) →
  (∀ w' e f, consumer w' = consumer w → P f → P (frame_of (body w' e f))) →
  P (Frame None ∅ c []) → P (final (run w c sched)).
Proof. apply while_loop_keeps. Qed.

Lemma invoked_log ev f :
  (∀ e, ev ≠ Invoked e) → invoked (trace (log ev f)) = invoked (trace f).
Proof.
  intros Hev. cbn [log trace]. autorewrite with trace.
  destruct ev as [| |e]; rewrite ?app_nil_r; [done..|]. by destruct (Hev e).
Qed.
End frame_invariants.

(** X2 (the cursor is the last delivery).  After any run, [last_timestamp] is
    the timestamp of the entry the consumer was called on last, and [None]
    when the consumer was never called. *)
Theorem cursor_is_last_delivered {C : Type} (w : LogWatcher C) (c : C)
    (sched : list tick) :
  last_timestamp (final (run w c sched))
  = timestamp <$> last (invoked (trace (final (run w c sched)))).
Proof.
  apply (run_keeps
    (fun f => last_timestamp f = timestamp <$> last (invoked (trace f)))).
  - intros ev f Hev Hf. by rewrite invoked_log.
  - intros w' e f _ Hf.
    destruct (body_cursor w' e f) as [->|(-> & _ & -> & _)]; [done|].
    by rewrite last_snoc.
  - done.
Qed.

(** X3 (the seen-set is the set of delivered ids).  After any run, an id is
    in [consumed] exactly when the consumer was called on an entry with
    that id. *)
Theorem seen_set_is_delivered_ids {C : Type} (w : LogWatcher C) (c : C)
    (sched : list tick) (i : string) :
  i ∈ consumed (final (run w c sched))
  ↔ i ∈ eventId <$> invoked (trace (final (run w c sched))).
Proof.
  apply (run_keeps
    (fun f => ∀ i, i ∈ consumed f ↔ i ∈ eventId <$> invoked (trace f))).
  - intros ev f Hev Hf j. by rewrite invoked_log.
  - intros w' e f _ Hf j.
    destruct (body_cursor w' e f) as [->|(_ & -> & -> & _)]; [done|].
    rewrite fmap_app, elem_of_union, elem_of_app, Hf. set_solver.
  - intros j. cbn. by rewrite elem_of_empty, elem_of_nil.
Qed.

(** X4 (the consumer's calls compose).  After any run, the consumer's state
    is the state it reaches when called on the delivered entries in order,
    each call starting from the state the call before left, also when the
    last call raised. *)
Theorem consumer_state_is_fold {C : Type} (w : LogWatcher C) (c : C)
    (sched : list tick) :
  cstate (final (run w c sched))
  = consumer_fold w c (invoked (trace (final (run w c sched)))).
Proof.
  apply (run_keeps
    (fun f => cstate f = consumer_fold w c (invoked (trace f)))).
  - intros ev f Hev Hf. by rewrite invoked_log.
  - intros w' e f Hw Hf. unfold body, consumer_fold in *.
    case_decide; [done|]. rewrite Hw.
    destruct (consumer w e (cstate f)) as [c' r] eqn:Hc.
    destruct r; cbn [frame_of cstate trace] in *;
      autorewrite with trace; rewrite foldl_app; simpl; by rewrite <- Hf, Hc.
  - done.
Qed.

(** ** How a run ends *)

Section endings.
Context {C : Type}.
Implicit Types (w : LogWatcher C) (f : frame C) (sched : list tick).

Lemma while_loop_exited w f0 sched f :
  while_loop w f0 sched = Exited f →
  stopped w = true ∨ Exists stop_called sched.
Proof.
  revert w f0. induction sched as [|tk rest IH]; intros w f0; simpl; [done|].
  destruct (stopped (Nat.iter _ stop w)) eqn:Hs.
  - intros _. rewrite stops_stopped in Hs.
    apply orb_true_iff in Hs as [Hs|Hs]; [by left|].
    right. left. by apply bool_decide_eq_true in Hs.
  - destruct (poll _ _ f0); [|done]. intros [Hw|Hex]%IH; [congruence|].
    right. by right.
Qed.

(** The number of fetches grows by at most one per wait, and by exactly one
    while the thread stays in the loop, which it does only as long as no
    [stop] call arrives. *)
Lemma while_loop_fetch_count w f0 sched :
  (length (fetches (trace (final (while_loop w f0 sched))))
   ≤ length (fetches (trace f0)) + length sched)%nat
  ∧ ∀ w' f, while_loop w f0 sched = Pending w' f →
      length (fetches (trace f))
      = (length (fetches (trace f0)) + length sched)%nat
      ∧ w' = w ∧ Forall (fun tk => stop_calls tk = 0%nat) sched.
Proof.
  revert w f0. induction sched as [|tk rest IH]; intros w f0; simpl.
  { split; [lia|]. intros w' f [= <- <-]. split; [lia|]. by split. }
  destruct (stopped (Nat.iter _ stop w)) eqn:Hs; simpl; [split; [lia|done]|].
  pose proof (poll_fetches (Nat.iter (stop_calls tk) stop w) (log_events tk) f0)
    as Hf.
  destruct (poll _ _ f0) as [f1|x f1]; simpl in *.
  - destruct (IH (Nat.iter (stop_calls tk) stop w) f1) as [Hle Hpend].
    rewrite Hf, length_app in Hle, Hpend. simpl in *.
    split; [lia|]. intros w' f Hrun.
    destruct (Hpend w' f Hrun) as (Hlen & -> & Hall).
    rewrite stops_stopped in Hs. apply orb_false_iff in Hs as [_ Hs].
    apply bool_decide_eq_false in Hs.
    assert (stop_calls tk = 0%nat) as H0 by lia.
    rewrite H0. simpl. split; [lia|]. split; [done|]. by constructor.
  - rewrite Hf, length_app. simpl. split; [lia|done].
Qed.

Lemma while_loop_stop_called w f0 sched :
  Exists stop_called sched → finished (while_loop w f0 sched) = true.
Proof.
  revert w f0. induction sched as [|tk rest IH]; intros w f0 Hex; simpl.
  { by apply Exists_nil in Hex. }
  destruct (stopped (Nat.iter _ stop w)) eqn:Hs; [done|].
  destruct (poll _ _ f0); [|done].
  apply Exists_cons in Hex as [Hex|Hex]; [|by apply IH].
  rewrite stops_stopped in Hs. apply orb_false_iff in Hs as [_ Hs].
  apply bool_decide_eq_false in Hs. by destruct Hs.
Qed.
End endings.

(** X5 (the loop returns only when told to).  If [run] has returned, then
    [stop] had been called before the thread started or is called during
    one of the waits: the loop has no other way out than an exception. *)
Theorem exits_only_when_stopped {C : Type} (w : LogWatcher C) (c : C)
    (sched : list tick) (f : frame C) :
  run w c sched = Exited f →
  stopped w = true ∨ Exists stop_called sched.
Proof. apply while_loop_exited. Qed.

Lemma exits_only_when_stopped_witness :
  run (init "job" collect) [] [Tick 0 (service [[e1]]); Tick 2 (service [[e1; e2]])]
    = Exited (Frame (Some 100) {[ "1" ]} [e1]
                [Fetch "job" None; Yielded e1; Invoked e1])
  ∧ (stopped (init "job" collect) = true
     ∨ Exists stop_called [Tick 0 (service [[e1]]); Tick 2 (service [[e1; e2]])]).
Proof.
  assert (Hrun : run (init "job" collect) []
                   [Tick 0 (service [[e1]]); Tick 2 (service [[e1; e2]])]
                 = Exited (Frame (Some 100) {[ "1" ]} [e1]
                     [Fetch "job" None; Yielded e1; Invoked e1])).
  { vm_compute. reflexivity. }
  split; [exact Hrun|].
  exact (exits_only_when_stopped _ _ _ _ Hrun).
Defined.

(** X6 (a stop call ends the thread).  If [stop] is called during the wait of
    some tick, the thread has ended by the end of the schedule, and it has
    made no more fetches than there were waits before that tick. *)
Theorem stop_call_ends_thread {C : Type} (w : LogWatcher C) (c : C)
    (pre post : list tick) (tk : tick) :
  stop_called tk →
  finished (run w c (pre ++ tk :: post)) = true
  ∧ (length (fetches (trace (final (run w c (pre ++ tk :: post)))))
     ≤ length pre)%nat.
Proof.
  intros Htk. split.
  - apply while_loop_stop_called, Exists_app. right. by left.
  - unfold run. rewrite while_loop_app.
    destruct (while_loop_fetch_count w (Frame None ∅ c []) pre) as [Hle _].
    destruct (while_loop w (Frame None ∅ c []) pre) as [f|x f|w' f];
      [done..|].
    rewrite while_loop_stopped; [done|].
    rewrite stops_stopped. unfold stop_called in Htk.
    rewrite (bool_decide_eq_true_2 _ Htk). apply orb_true_r.
Qed.

Lemma stop_call_ends_thread_witness :
  stop_called (Tick 1 (service [[e1; e2; e3]]))
  ∧ finished (run (init "job" collect) []
      ([Tick 0 (service [[e1]])] ++ Tick 1 (service [[e1; e2; e3]])
         :: [Tick 0 (service [[e1; e2; e3]])])) = true.
Proof.
  assert (H : stop_called (Tick 1 (service [[e1; e2; e3]])))
    by (unfold stop_called; simpl; lia).
  split; [exact H|].
  exact (proj1 (stop_call_ends_thread (init "job" collect) []
                  [Tick 0 (service [[e1]])] [Tick 0 (service [[e1; e2; e3]])]
                  (Tick 1 (service [[e1; e2; e3]])) H)).
Defined.

(** X7 (one fetch per wait).  A run makes at most one fetch per wait.  A
    thread that is still in the loop has made exactly one fetch per wait,
    has seen no [stop] call, and its watcher object is as it was. *)
Theorem one_fetch_per_wait {C : Type} (w w' : LogWatcher C) (c : C)
    (sched : list tick) (f : frame C) :
  (length (fetches (trace (final (run w c sched)))) ≤ length sched)%nat
  ∧ (run w c sched = Pending w' f →
     length (fetches (trace f)) = length sched
     ∧ w' = w
     ∧ Forall (fun tk => stop_calls tk = 0%nat) sched).
Proof.
  destruct (while_loop_fetch_count w (Frame None ∅ c []) sched) as [Hle Hp].
  split; [exact Hle|]. intros Hrun. by apply Hp.
Qed.

Lemma one_fetch_per_wait_witness :
  run (init "job" collect) [] two_polls
    = Pending (init "job" collect)
        (Frame (Some 105) {[ "1"; "2"; "3" ]} [e1; e2; e3]
           [Fetch "job" None; Yielded e1; Invoked e1; Yielded e2; Invoked e2;
            Fetch "job" (Some 101); Yielded e2; Yielded e3; Invoked e3])
  ∧ Forall (fun tk => stop_calls tk = 0%nat) two_polls.
Proof.
  assert (Hrun : run (init "job" collect) [] two_polls
    = Pending (init "job" collect)
        (Frame (Some 105) {[ "1"; "2"; "3" ]} [e1; e2; e3]
           [Fetch "job" None; Yielded e1; Invoked e1; Yielded e2; Invoked e2;
            Fetch "job" (Some 101); Yielded e2; Yielded e3; Invoked e3])).
  { vm_compute. reflexivity. }
  split; [exact Hrun|].
  exact (proj2 (proj2 (proj2 (one_fetch_per_wait _ _ _ _ _) Hrun))).
Defined.

(** ** Polls without news *)

Section no_news.
Context {C : Type}.
Implicit Types (w : LogWatcher C) (f : frame C) (e : entry) (g : gen).

(** A for loop over entries that are all in the seen-set only records the
    yields. *)
Lemma for_entries_seen w g f :
  (∀ e, e ∈ gen_entries g → eventId e ∈ consumed f) →
  for_entries w g f
  = match gen_raises g with
    | Some x => Raised x
    | None => Normal
    end (Frame (last_timestamp f) (consumed f) (cstate f)
           (trace f ++ (Yielded <$> gen_entries g))).
Proof.
  revert f. induction g as [|x|e k IH]; intros f Hseen; simpl.
  - rewrite app_nil_r. by destruct f.
  - rewrite app_nil_r. by destruct f.
  - unfold body. rewrite decide_True by (apply Hseen; by left).
    rewrite IH by (intros e' He'; apply Hseen; by right).
    cbn [log last_timestamp consumed cstate trace].
    by rewrite <- app_assoc.
Qed.

Lemma first_appearances_sublist (l : list entry) :
  first_appearances l `sublist_of` l.
Proof.
  induction l as [|a l IH]; simpl; [done|].
  apply sublist_skip. etrans; [apply sublist_filter|done].
Qed.
End no_news.

(** X8 (a poll without news).  When every entry the generator yields has its
    id in the seen-set, the poll calls the consumer on none of them and
    leaves the cursor, the seen-set and the consumer's state as they were;
    it ends as the generator ends. *)
Theorem poll_without_news {C : Type} (w : LogWatcher C) (p : paginator)
    (f : frame C) :
  (∀ e, e ∈ gen_entries (fetch_stream p (stream w) (last_timestamp f)) →
        eventId e ∈ consumed f) →
  poll w p f
  = match gen_raises (fetch_stream p (stream w) (last_timestamp f)) with
    | Some x => Raised x
    | None => Normal
    end (Frame (last_timestamp f) (consumed f) (cstate f)
           (trace f ++ Fetch (stream w) (last_timestamp f)
              :: (Yielded <$> gen_entries
                    (fetch_stream p (stream w) (last_timestamp f)))))
  ∧ invoked (trace (frame_of (poll w p f))) = invoked (trace f).
Proof.
  intros Hseen.
  assert (poll w p f
    = match gen_raises (fetch_stream p (stream w) (last_timestamp f)) with
      | Some x => Raised x
      | None => Normal
      end (Frame (last_timestamp f) (consumed f) (cstate f)
             (trace f ++ Fetch (stream w) (last_timestamp f)
                :: (Yielded <$> gen_entries
                      (fetch_stream p (stream w) (last_timestamp f)))))) as ->.
  { unfold poll. rewrite for_entries_seen by done.
    cbn [log last_timestamp consumed cstate trace]. by rewrite <- app_assoc. }
  split; [done|].
  assert (∀ l : list entry, invoked (Yielded <$> l) = []) as Hy
    by (intros l; induction l; simpl; done).
  destruct (gen_raises _); cbn [frame_of trace];
    rewrite invoked_app; simpl; change (omap _ ?l) with (invoked l);
    by rewrite Hy, app_nil_r.
Qed.

(** The service still holds what the first poll delivered. *)
Lemma poll_without_news_witness :
  (∀ e, e ∈ gen_entries (fetch_stream (service [[e1]; [e2]]) "job" (Some 101)) →
        eventId e ∈ ({[ "1"; "2" ]} : gset string))
  ∧ poll (init "job" collect) (service [[e1]; [e2]])
      (Frame (Some 101) {[ "1"; "2" ]} [e1; e2] [])
    = Normal (Frame (Some 101) {[ "1"; "2" ]} [e1; e2]
                [Fetch "job" (Some 101); Yielded e2]).
Proof.
  assert (H : ∀ e,
    e ∈ gen_entries (fetch_stream (service [[e1]; [e2]]) "job" (Some 101)) →
    eventId e ∈ ({[ "1"; "2" ]} : gset string)).
  { intros e He. vm_compute in He.
    apply list_elem_of_singleton in He as ->. set_solver. }
  split; [exact H|].
  exact (proj1 (poll_without_news (init "job" collect) (service [[e1]; [e2]])
                  (Frame (Some 101) {[ "1"; "2" ]} [e1; e2] []) H)).
Defined.

(** X9 (entries pass through unchanged and in order).  The entries the
    consumer is called on form a subsequence of the entries the generators
    yielded: none is made up or altered, and none overtakes another. *)
Theorem delivered_is_subsequence {C : Type} (w : LogWatcher C) (c : C)
    (sched : list tick) :
  invoked (trace (final (run w c sched)))
    `sublist_of` yielded (trace (final (run w c sched))).
Proof.
  destruct (run_inv w c sched) as [_ ->]. apply first_appearances_sublist.
Qed.


(** * Properties of the view command *)

(** ** resolve *)

Section resolve.
Implicit Types (a : AddressInfo) (addrs pre post : list AddressInfo).

Lemma filter_family_first (fam : AddressFamily) pre a post :
  Forall (fun b => family b ≠ fam) pre → family a = fam →
  filter (fun b => family b = fam) (pre ++ a :: post)
  = a :: filter (fun b => family b = fam) post.
Proof.
  intros Hpre Ha. rewrite filter_app, filter_cons, decide_True by done.
  induction Hpre as [|b pre Hb _ IH]; [done|].
  by rewrite filter_cons, decide_False.
Qed.

Lemma filter_family_none (fam : AddressFamily) addrs :
  Forall (fun b => family b ≠ fam) addrs →
  filter (fun b => family b = fam) addrs = [].
Proof.
  induction 1 as [|b l Hb _ IH]; [done|].
  by rewrite filter_cons, decide_False.
Qed.
End resolve.

(** X10 (IPv4 first).  When the addresses found hold an IPv4 one, the result
    is the ip and port of the first IPv4 address, wherever it stands among
    addresses of other families; the port given is not read as a number. *)
Theorem resolve_prefers_ipv4
    (getaddrinfo : string → port_arg → raises (list AddressInfo))
    (int : port_arg → raises Z) (host : string) (port : port_arg)
    (pre post : list AddressInfo) (a : AddressInfo) :
  getaddrinfo host port = Returns (pre ++ a :: post) →
  Forall (fun b => family b ≠ AF_INET) pre →
  family a = AF_INET →
  resolve getaddrinfo int host port = Returns (sockaddr_0_2 (sockaddr a)).
Proof.
  intros Hg Hpre Ha. unfold resolve. rewrite Hg.
  by rewrite filter_family_first.
Qed.

Lemma resolve_prefers_ipv4_witness :
  Forall (fun b => family b ≠ AF_INET) [loopback6]
  ∧ resolve hosts_file int_of_port "localhost" (PortStr "http")
    = Returns ("127.0.0.1", 4000).
Proof.
  assert (H : Forall (fun b => family b ≠ AF_INET) [loopback6])
    by (repeat constructor; simpl; discriminate).
  split; [exact H|].
  exact (resolve_prefers_ipv4 hosts_file int_of_port "localhost"
           (PortStr "http") [loopback6] [] loopback4 eq_refl H eq_refl).
Defined.

(** X11 (IPv6 only without IPv4).  When the addresses found hold no IPv4
    address but an IPv6 one, the result is the ip and port of the first
    IPv6 address; flow info and scope id are dropped. *)
Theorem resolve_falls_back_to_ipv6
    (getaddrinfo : string → port_arg → raises (list AddressInfo))
    (int : port_arg → raises Z) (host : string) (port : port_arg)
    (pre post : list AddressInfo) (a : AddressInfo) :
  getaddrinfo host port = Returns (pre ++ a :: post) →
  Forall (fun b => family b ≠ AF_INET) (pre ++ a :: post) →
  Forall (fun b => family b ≠ AF_INET6) pre →
  family a = AF_INET6 →
  resolve getaddrinfo int host port = Returns (sockaddr_0_2 (sockaddr a)).
Proof.
  intros Hg H4 Hpre Ha. unfold resolve. rewrite Hg.
  by rewrite filter_family_none, filter_family_first.
Qed.

Lemma resolve_falls_back_to_ipv6_witness :
  Forall (fun b => family b ≠ AF_INET) [loopback6]
  ∧ resolve hosts_file int_of_port "ip6-localhost" (PortInt 4000)
    = Returns ("::1", 4000).
Proof.
  assert (H : Forall (fun b => family b ≠ AF_INET) [loopback6])
    by (repeat constructor; simpl; discriminate).
  split; [exact H|].
  exact (resolve_falls_back_to_ipv6 hosts_file int_of_port "ip6-localhost"
           (PortInt 4000) [] [] loopback6 eq_refl H (Forall_nil_2 _) eq_refl).
Defined.

(** X12 (nothing is made up).  What [resolve] returns is the ip and port of
    one of the addresses found, of family IPv4 or IPv6, or else the host as
    given with the port read as a number, and this only when no address of
    these families was found.  It raises only what the lookup or the
    reading of the port raises. *)
Theorem resolve_result
    (getaddrinfo : string → port_arg → raises (list AddressInfo))
    (int : port_arg → raises Z) (host : string) (port : port_arg) :
  match resolve getaddrinfo int host port with
  | Returns r =>
      ∃ addrs, getaddrinfo host port = Returns addrs
        ∧ ((∃ a, a ∈ addrs ∧ r = sockaddr_0_2 (sockaddr a)
                 ∧ (family a = AF_INET
                    ∨ family a = AF_INET6
                      ∧ Forall (fun b => family b ≠ AF_INET) addrs))
           ∨ (∃ n, int port = Returns n ∧ r = (host, n)
                   ∧ Forall (fun b => family b ≠ AF_INET
                                     ∧ family b ≠ AF_INET6) addrs))
  | Raises x =>
      getaddrinfo host port = Raises x
      ∨ (int port = Raises x
         ∧ ∃ addrs, getaddrinfo host port = Returns addrs
             ∧ Forall (fun b => family b ≠ AF_INET
                               ∧ family b ≠ AF_INET6) addrs)
  end.
Proof.
  unfold resolve. destruct (getaddrinfo host port) as [addrs|x]; [|by left].
  assert (H4 : filter (fun a => family a = AF_INET) addrs = []
               → Forall (fun b => family b ≠ AF_INET) addrs).
  { intros Hnil. apply Forall_forall. intros b Hb Hfam.
    assert (b ∈ filter (fun a => family a = AF_INET) addrs) as Hin
      by (by apply list_elem_of_filter).
    rewrite Hnil in Hin. by apply elem_of_nil in Hin. }
  assert (H6 : filter (fun a => family a = AF_INET6) addrs = []
               → Forall (fun b => family b ≠ AF_INET6) addrs).
  { intros Hnil. apply Forall_forall. intros b Hb Hfam.
    assert (b ∈ filter (fun a => family a = AF_INET6) addrs) as Hin
      by (by apply list_elem_of_filter).
    rewrite Hnil in Hin. by apply elem_of_nil in Hin. }
  destruct (filter (fun a => family a = AF_INET) addrs) as [|a l4] eqn:E4.
  - specialize (H4 eq_refl).
    destruct (filter (fun a => family a = AF_INET6) addrs) as [|a l6] eqn:E6.
    + specialize (H6 eq_refl).
      assert (Forall (fun b => family b ≠ AF_INET ∧ family b ≠ AF_INET6) addrs)
        as Hnone.
      { apply Forall_forall. intros b Hb.
        rewrite Forall_forall in H4, H6. split; [by apply H4|by apply H6]. }
      destruct (int port) as [n|x].
      * exists addrs. split; [done|]. right. by exists n.
      * right. split; [done|]. by exists addrs.
    + assert (a ∈ filter (fun a => family a = AF_INET6) addrs) as Hin
        by (rewrite E6; by left).
      apply list_elem_of_filter in Hin as [Hfam Hin].
      exists addrs. split; [done|]. left. exists a. by auto.
  - assert (a ∈ filter (fun a => family a = AF_INET) addrs) as Hin
      by (rewrite E4; by left).
    apply list_elem_of_filter in Hin as [Hfam Hin].
    exists addrs. split; [done|]. left. exists a. by auto.
Qed.

(** A name that resolves to nothing is returned as given, with the port read
    as a number; a failing lookup and an unreadable port raise. *)
Example resolve_as_given :
  resolve hosts_file int_of_port "example.org" (PortStr "4000")
    = Returns ("example.org", 4000)
  ∧ resolve hosts_file int_of_port "example.org" (PortStr "http")
    = Raises (OtherError "ValueError")
  ∧ resolve hosts_file int_of_port "" (PortInt 80)
    = Raises (OtherError "gaierror").
Proof. repeat split. Qed.

(** ** Names of datasets and narratives *)

Example narrative_paths_example :
  narrative_paths (Iterator
    [ {| parent := "narratives"; name := "README.md" |};
      {| parent := "narratives"; name := "zika_intro.v2.md" |};
      {| parent := "narratives"; name := "notes.txt" |} ])
  = {[ "narratives/zika/intro.v2" ]}.
Proof. vm_compute. reflexivity. Qed.

Example dataset_paths_example :
  dataset_paths drop_suffix (in_dir ["zika_tree.json"; "zika_meta.json"])
    (Sequence zika_v1) = {[ "zika" ]}
  ∧ dataset_paths drop_suffix (in_dir ["zika_tree.json"; "zika_meta.json"])
      (Iterator zika_v1) = ∅.
Proof. split; vm_compute; reflexivity. Qed.

Section names.
Implicit Types (s x : string) (l r : list ascii) (p path : Path).

Lemma chars_app s1 s2 : chars (s1 +:+ s2) = chars s1 ++ chars s2.
Proof. induction s1 as [|c s1 IH]; simpl; [done|]. by rewrite <- IH. Qed.

Lemma chars_str l : chars (str l) = l.
Proof. apply String.list_ascii_of_string_of_list_ascii. Qed.

Lemma str_chars s : str (chars s) = s.
Proof. apply String.string_of_list_ascii_of_string. Qed.

Lemma chars_inj s1 s2 : chars s1 = chars s2 → s1 = s2.
Proof. intros H. by rewrite <- (str_chars s1), H, str_chars. Qed.

Lemma endswith_app x suffix : endswith (x +:+ suffix) suffix = true.
Proof.
  apply bool_decide_eq_true. rewrite chars_app. by apply suffix_app_r.
Qed.


(** A string has one ending of a given length. *)
Lemma endswith_two s suffix1 suffix2 :
  endswith s suffix1 = true → endswith s suffix2 = true →
  bool_decide (chars suffix1 `suffix_of` chars suffix2) = true
  ∨ bool_decide (chars suffix2 `suffix_of` chars suffix1) = true.
Proof.
  intros H1%bool_decide_eq_true H2%bool_decide_eq_true.
  destruct (suffix_weak_total _ _ _ H1 H2); [left|right];
    by apply bool_decide_eq_true.
Qed.

Lemma rfind_dot_none r : "."%char ∉ r → rfind_dot r = None.
Proof.
  induction r as [|c r IH]; simpl; [done|].
  intros [Hc Hr]%not_elem_of_cons. rewrite IH by done.
  by rewrite decide_False.
Qed.

Lemma rfind_dot_last l r :
  "."%char ∉ r → rfind_dot (l ++ "."%char :: r) = Some (length l).
Proof.
  intros Hr. induction l as [|c l IH]; simpl.
  - by rewrite rfind_dot_none.
  - by rewrite IH.
Qed.

(** The stem of a name with an extension: what comes before the last dot,
    unless nothing does. *)
Lemma stem_extension path l ext :
  chars (name path) = l ++ "."%char :: ext →
  "."%char ∉ ext → ext ≠ [] →
  chars (stem path) = if decide (l = []) then chars (name path) else l.
Proof.
  intros Hn Hdot Hext. unfold stem. rewrite Hn, rfind_dot_last by done.
  rewrite length_app. cbn [length].
  destruct (decide (l = [])) as [->|Hl].
  - destruct (decide (0 < length [] < _)%nat) as [[H0 _]|_]; [|done].
    simpl in H0. lia.
  - destruct (decide (0 < length l < _)%nat) as [_|Hno].
    + by rewrite chars_str, take_app_length.
    + exfalso. apply Hno. destruct l; [done|]. destruct ext; [done|].
      simpl. lia.
Qed.

Lemma chars_replace_underscores s :
  chars (replace_underscores s) = underscore_to_slash <$> chars s.
Proof. apply chars_str. Qed.

Lemma no_underscore_left l : "_"%char ∉ underscore_to_slash <$> l.
Proof.
  induction l as [|c l IH]; simpl; [by apply not_elem_of_nil|].
  apply not_elem_of_cons. split; [|done].
  unfold underscore_to_slash. case_decide; [done|congruence].
Qed.

End names.

Section narratives.
Implicit Types (x q : string) (path : Path) (paths : iterable Path).

Lemma narrative_paths_elem q paths :
  q ∈ narrative_paths paths ↔
  ∃ path, path ∈ first_pass paths
    ∧ match_suffix path ".md" = true
    ∧ (name path ∉ ["README.md"; "group-overview.md"])
    ∧ q = "narratives/" +:+ replace_underscores (stem path).
Proof.
  unfold narrative_paths. rewrite elem_of_list_to_set, list_elem_of_fmap.
  split.
  - intros (path & -> & [[Hm Hx] Hin]%list_elem_of_filter). by exists path.
  - intros (path & Hin & Hm & Hx & ->). exists path. split; [done|].
    by apply list_elem_of_filter.
Qed.

(** The stem of a name that ends in a dot and an extension without dots. *)
Lemma stem_of_extension path x (ext : string) :
  name path = x +:+ "." +:+ ext → "."%char ∉ chars ext → ext ≠ "" →
  stem path = if decide (x = "") then name path else x.
Proof.
  intros Hn Hdot Hext. apply chars_inj.
  rewrite (stem_extension path (chars x) (chars ext)).
  - destruct (decide (chars x = [])) as [Hx|Hx];
      destruct (decide (x = "")) as [Hx'|Hx']; try done.
    + destruct Hx'. apply chars_inj. by rewrite Hx.
    + by rewrite Hx' in Hx.
  - by rewrite Hn, chars_app.
  - done.
  - intros He. apply Hext, chars_inj. by rewrite He.
Qed.

End narratives.


(** X14 (the shape of a narrative path).  Every narrative path is
    [narratives/] followed by a string without underscores. *)
Theorem narrative_paths_shape (paths : iterable Path) (q : string) :
  q ∈ narrative_paths paths →
  ∃ s, q = "narratives/" +:+ s ∧ "_"%char ∉ chars s.
Proof.
  intros (path & _ & _ & _ & ->)%narrative_paths_elem.
  exists (replace_underscores (stem path)). split; [done|].
  rewrite chars_replace_underscores. apply no_underscore_left.
Qed.

Lemma narrative_paths_shape_witness :
  "narratives/zika/intro.v2" ∈ narrative_paths (Iterator
    [ {| parent := "narratives"; name := "README.md" |};
      {| parent := "narratives"; name := "zika_intro.v2.md" |} ])
  ∧ ∃ s, "narratives/zika/intro.v2" = "narratives/" +:+ s
         ∧ "_"%char ∉ chars s.
Proof.
  assert (H : "narratives/zika/intro.v2" ∈ narrative_paths (Iterator
    [ {| parent := "narratives"; name := "README.md" |};
      {| parent := "narratives"; name := "zika_intro.v2.md" |} ])).
  { vm_compute. set_solver. }
  split; [exact H|]. exact (narrative_paths_shape _ _ H).
Defined.

(** X15 (which narrative a file gives).  A file [x.md] with [x] not empty,
    other than the two left out, is listed as [narratives/] followed by [x]
    with every underscore turned into a slash; dots in [x] stay. *)
Theorem narrative_paths_lists (paths : iterable Path) (path : Path)
    (x : string) :
  path ∈ first_pass paths →
  name path = x +:+ ".md" →
  x ≠ "" →
  name path ∉ ["README.md"; "group-overview.md"] →
  "narratives/" +:+ replace_underscores x ∈ narrative_paths paths.
Proof.
  intros Hin Hn Hx Hex. apply narrative_paths_elem. exists path.
  split; [done|]. split; [unfold match_suffix; rewrite Hn; apply endswith_app|].
  split; [done|].
  rewrite (stem_of_extension path x "md"); try done.
  - by rewrite decide_False.
  - vm_compute. set_solver.
Qed.

Lemma narrative_paths_lists_witness :
  "narratives/" +:+ replace_underscores "zika_intro.v2"
  ∈ narrative_paths (Iterator
      [ {| parent := "narratives"; name := "zika_intro.v2.md" |} ]).
Proof.
  apply (narrative_paths_lists _
           {| parent := "narratives"; name := "zika_intro.v2.md" |}
           "zika_intro.v2").
  - simpl. set_solver.
  - reflexivity.
  - discriminate.
  - simpl. set_solver.
Defined.

Section datasets.
Context (remove_suffix : string → string → string) (path_exists : Path → bool).
Implicit Types (x q : string) (path : Path) (paths : iterable Path).

Lemma dataset_paths_elem q paths :
  q ∈ dataset_paths remove_suffix path_exists paths ↔
  (∃ path, path ∈ first_pass paths
     ∧ match_suffix path ".json" = true
     ∧ sidecar_file path = false
     ∧ q = replace_underscores (stem path))
  ∨ (∃ path, path ∈ second_pass paths
       ∧ match_suffix path "_tree.json" = true
       ∧ meta_exists remove_suffix path_exists path = true
       ∧ q = replace_underscores (re_sub_tree (stem path))).
Proof.
  unfold dataset_paths.
  rewrite elem_of_union, !elem_of_list_to_set, !list_elem_of_fmap.
  split.
  - intros [(path & -> & [[? ?] ?]%list_elem_of_filter)
           |(path & -> & [[? ?] ?]%list_elem_of_filter)];
      [left|right]; by exists path.
  - intros [(path & ? & ? & ? & ->)|(path & ? & ? & ? & ->)];
      [left|right]; exists path; (split; [done|]);
      by apply list_elem_of_filter.
Qed.

Lemma re_sub_tree_app x : re_sub_tree (x +:+ "_tree") = x.
Proof.
  unfold re_sub_tree. rewrite endswith_app.
  rewrite chars_app, length_app. simpl.
  replace (length (chars x) + 5 - 5)%nat with (length (chars x)) by lia.
  by rewrite take_app_length, str_chars.
Qed.

(** A name with a sidecar ending other than [_tree.json] does not end in
    [_tree.json]. *)
Lemma sidecar_not_tree path suffix :
  suffix ∈ sidecar_suffixes → suffix ≠ "tree" →
  endswith (name path) ("_" +:+ suffix +:+ ".json") = true →
  sidecar_file path = true ∧ match_suffix path "_tree.json" = false.
Proof.
  intros Hin Hne He. split.
  - unfold sidecar_file. apply existsb_exists. exists suffix.
    split; [by apply list_elem_of_In|done].
  - unfold match_suffix. destruct (endswith (name path) "_tree.json") eqn:Ht;
      [|done].
    exfalso. unfold sidecar_suffixes in Hin.
    repeat (apply elem_of_cons in Hin as [->|Hin];
      [first [ by destruct Hne
             | by destruct (endswith_two _ _ _ He Ht) as [H|H];
                 vm_compute in H ]|]).
    by apply elem_of_nil in Hin.
Qed.
End datasets.

(** X16 (a one-shot iterator hides v1 datasets).  [dataset_paths] goes through
    [paths] twice.  Given an iterator, as [run] gives it the generator of
    [glob], the second loop sees nothing: the result is what a sequence of
    the same files gives when no [_meta.json] file exists, and so part of
    what the sequence gives. *)
Theorem dataset_paths_one_shot (remove_suffix : string → string → string)
    (path_exists : Path → bool) (l : list Path) :
  dataset_paths remove_suffix path_exists (Iterator l)
  = dataset_paths remove_suffix (fun _ => false) (Sequence l)
  ∧ dataset_paths remove_suffix path_exists (Iterator l)
    ⊆ dataset_paths remove_suffix path_exists (Sequence l).
Proof.
  split.
  - apply set_eq. intros q. rewrite !dataset_paths_elem. simpl.
    split; [intros [H|(path & []%elem_of_nil & _)]; by left|].
    intros [H|(path & _ & _ & Hm & _)]; [by left|done].
  - intros q. rewrite !dataset_paths_elem. simpl.
    intros [H|(path & []%elem_of_nil & _)]. by left.
Qed.

(** X17 (sidecar files give no dataset).  A file whose name ends in
    [_meta.json], [_root-sequence.json], [_seq.json], [_sequences.json],
    [_tip-frequencies.json], [_measurements.json] or [_entropy.json] can be
    taken out of the paths without changing the datasets found. *)
Theorem dataset_paths_ignores_sidecars
    (remove_suffix : string → string → string) (path_exists : Path → bool)
    (l1 l2 : list Path) (path : Path) (suffix : string) :
  suffix ∈ sidecar_suffixes → suffix ≠ "tree" →
  endswith (name path) ("_" +:+ suffix +:+ ".json") = true →
  dataset_paths remove_suffix path_exists (Sequence (l1 ++ path :: l2))
  = dataset_paths remove_suffix path_exists (Sequence (l1 ++ l2))
  ∧ dataset_paths remove_suffix path_exists (Iterator (l1 ++ path :: l2))
    = dataset_paths remove_suffix path_exists (Iterator (l1 ++ l2)).
Proof.
  intros Hin Hne He.
  destruct (sidecar_not_tree path suffix Hin Hne He) as [Hside Htree].
  unfold dataset_paths. simpl.
  rewrite !(filter_app _ l1 (path :: l2)), !filter_cons.
  rewrite !decide_False by (intros [? ?]; congruence).
  by rewrite !filter_app.
Qed.

Lemma dataset_paths_ignores_sidecars_witness :
  dataset_paths drop_suffix (in_dir [])
    (Sequence ([ {| parent := "auspice"; name := "zika.json" |} ]
               ++ {| parent := "auspice"; name := "zika_root-sequence.json" |}
               :: []))
  = {[ "zika" ]}.
Proof.
  rewrite (proj1 (dataset_paths_ignores_sidecars drop_suffix (in_dir [])
    [ {| parent := "auspice"; name := "zika.json" |} ] []
    {| parent := "auspice"; name := "zika_root-sequence.json" |}
    "root-sequence" ltac:(vm_compute; set_solver) ltac:(discriminate)
    eq_refl)).
  vm_compute. reflexivity.
Defined.

(** X18 (no underscore in a dataset path).  Every dataset path is free of
    underscores. *)
Theorem dataset_paths_no_underscore
    (remove_suffix : string → string → string) (path_exists : Path → bool)
    (paths : iterable Path) (q : string) :
  q ∈ dataset_paths remove_suffix path_exists paths → "_"%char ∉ chars q.
Proof.
  intros [(path & _ & _ & _ & ->)|(path & _ & _ & _ & ->)]%dataset_paths_elem;
    rewrite chars_replace_underscores; apply no_underscore_left.
Qed.

Lemma dataset_paths_no_underscore_witness :
  "flu/seasonal/h3n2" ∈ dataset_paths drop_suffix (in_dir [])
    (Iterator [ {| parent := "auspice"; name := "flu_seasonal_h3n2.json" |} ])
  ∧ "_"%char ∉ chars "flu/seasonal/h3n2".
Proof.
  assert (H : "flu/seasonal/h3n2" ∈ dataset_paths drop_suffix (in_dir [])
    (Iterator [ {| parent := "auspice"; name := "flu_seasonal_h3n2.json" |} ])).
  { vm_compute. set_solver. }
  split; [exact H|]. exact (dataset_paths_no_underscore _ _ _ _ H).
Defined.

(** X19 (which dataset a v2 file gives).  A file [x.json] with [x] not empty
    that is no sidecar file is listed as [x] with every underscore turned
    into a slash, for a sequence and for an iterator alike. *)
Theorem dataset_paths_lists_v2
    (remove_suffix : string → string → string) (path_exists : Path → bool)
    (paths : iterable Path) (path : Path) (x : string) :
  path ∈ first_pass paths →
  name path = x +:+ ".json" →
  x ≠ "" →
  sidecar_file path = false →
  replace_underscores x ∈ dataset_paths remove_suffix path_exists paths.
Proof.
  intros Hin Hn Hx Hside. apply dataset_paths_elem. left. exists path.
  split; [done|]. split; [unfold match_suffix; rewrite Hn; apply endswith_app|].
  split; [done|].
  rewrite (stem_of_extension path x "json"); try done.
  - by rewrite decide_False.
  - vm_compute. set_solver.
Qed.

Lemma dataset_paths_lists_v2_witness :
  replace_underscores "flu_seasonal_h3n2"
  ∈ dataset_paths drop_suffix (in_dir [])
      (Iterator [ {| parent := "auspice"; name := "flu_seasonal_h3n2.json" |} ]).
Proof.
  apply (dataset_paths_lists_v2 _ _ _
           {| parent := "auspice"; name := "flu_seasonal_h3n2.json" |}
           "flu_seasonal_h3n2").
  - simpl. set_solver.
  - reflexivity.
  - discriminate.
  - vm_compute. reflexivity.
Defined.

(** X20 (which dataset a v1 pair gives).  In a sequence, a file
    [x_tree.json] for which [meta_exists] holds is listed as [x] with every
    underscore turned into a slash: the path a v2 file [x.json] gives. *)
Theorem dataset_paths_lists_v1
    (remove_suffix : string → string → string) (path_exists : Path → bool)
    (l : list Path) (path : Path) (x : string) :
  path ∈ l →
  name path = x +:+ "_tree.json" →
  meta_exists remove_suffix path_exists path = true →
  replace_underscores x
  ∈ dataset_paths remove_suffix path_exists (Sequence l).
Proof.
  intros Hin Hn Hmeta. apply dataset_paths_elem. right. exists path.
  split; [done|]. split; [unfold match_suffix; rewrite Hn; apply endswith_app|].
  split; [done|].
  assert (name path = (x +:+ "_tree") +:+ "." +:+ "json") as Hn'.
  { rewrite Hn. apply chars_inj. rewrite !chars_app. simpl.
    by rewrite <- app_assoc. }
  rewrite (stem_of_extension path (x +:+ "_tree") "json" Hn');
    [|vm_compute; set_solver|done].
  rewrite decide_False.
  - by rewrite re_sub_tree_app.
  - intros He. apply (f_equal chars) in He. rewrite chars_app in He.
    by destruct (chars x).
Qed.

Lemma dataset_paths_lists_v1_witness :
  replace_underscores "zika"
  ∈ dataset_paths drop_suffix (in_dir ["zika_tree.json"; "zika_meta.json"])
      (Sequence zika_v1).
Proof.
  apply (dataset_paths_lists_v1 _ _ _
           {| parent := "auspice"; name := "zika_tree.json" |} "zika").
  - unfold zika_v1. set_solver.
  - reflexivity.
  - vm_compute. reflexivity.
Defined.
